(** * csvsql: the CSV-to-SQL pipeline of [csvkit/utilities/csvsql.py]

    A shallow embedding of [CSVSQL.main].  The method is a straight-line
    script that talks to collaborators living in other modules
    ([csvkit.cli], [csvkit.table], [csvkit.sql], SQLAlchemy, agate).  It is
    embedded in a small state-and-exception monad whose state is the
    chronological trace of the calls made to those collaborators; what the
    collaborators answer is given by a [World], an arbitrary deterministic
    function of the interaction so far. *)

From Stdlib Require Import List String Ascii Bool ZArith Lia.
Import ListNotations.

Local Open Scope string_scope.
Local Open Scope list_scope.


(** ** Python values *)

(** Truthiness of an optional string ([None] and [''] are falsy). *)
Definition truthy (s : option string) : bool :=
  match s with
  | None => false
  | Some EmptyString => false
  | Some (String _ _) => true
  end.

(** Truthiness of a string, as in [if q:]. *)
Definition nonempty (s : string) : bool :=
  match s with
  | EmptyString => false
  | String _ _ => true
  end.

(** [s.split(sep)] for a one-character separator. *)
Fixpoint split (sep : ascii) (s : string) : list string :=
  match s with
  | EmptyString => [EmptyString]
  | String c rest =>
      if Ascii.eqb c sep then EmptyString :: split sep rest
      else match split sep rest with
           | [] => [String c EmptyString]
           | piece :: pieces => String c piece :: pieces
           end
  end.

(** [s.rfind(c)]: the highest index holding [c], or [-1]. *)
Fixpoint rfind_from (c : ascii) (s : string) (i last : Z) : Z :=
  match s with
  | EmptyString => last
  | String x rest => rfind_from c rest (i + 1) (if Ascii.eqb x c then i else last)
  end.

Definition rfind (c : ascii) (s : string) : Z := rfind_from c s 0 (-1).

(** The slices [p[:i]] and [p[i:]] for [0 <= i]. *)
Definition slice_to (i : Z) (p : string) : string :=
  substring 0 (Z.to_nat i) p.

Definition slice_from (i : Z) (p : string) : string :=
  substring (Z.to_nat i) (String.length p - Z.to_nat i) p.

Module os_path.

(** [s.rstrip(c)]. *)
Fixpoint rstrip (c : ascii) (s : string) : string :=
  match s with
  | EmptyString => EmptyString
  | String x rest =>
      match rstrip c rest with
      | EmptyString => if Ascii.eqb x c then EmptyString else String x EmptyString
      | rest' => String x rest'
      end
  end.

(** [posixpath.split]: the head loses its trailing slashes unless it
    consists of slashes only. *)
Definition split (p : string) : string * string :=
  let i := (rfind "/" p + 1)%Z in
  let head := slice_to i p in
  let tail := slice_from i p in
  (match rstrip "/" head with
   | EmptyString => head
   | stripped => stripped
   end, tail).

(** The [while] loop of [genericpath._splitext]: is there a character
    other than the dot among [p[filenameIndex .. dotIndex)]? *)
Fixpoint skip_leading_dots (p : string) (filenameIndex : Z) (steps : nat) : bool :=
  match steps with
  | O => false
  | S steps' =>
      match get (Z.to_nat filenameIndex) p with
      | Some ch =>
          if Ascii.eqb ch "." then skip_leading_dots p (filenameIndex + 1) steps'
          else true
      | None => true
      end
  end.

(** [posixpath.splitext]. *)
Definition splitext (p : string) : string * string :=
  let sepIndex := rfind "/" p in
  let dotIndex := rfind "." p in
  if (sepIndex <? dotIndex)%Z then
    if skip_leading_dots p (sepIndex + 1) (Z.to_nat (dotIndex - (sepIndex + 1)))
    then (slice_to dotIndex p, slice_from dotIndex p)
    else (p, EmptyString)
  else (p, EmptyString).

End os_path.

(** ** Data model *)

(** Exceptions that can leave [main]. *)
Inductive exn : Type :=
| ArgparserError (message : string)   (* argparser.error: usage message, exit status 2 *)
| ImportError (message : string)
| OtherError (kind message : string). (* anything else a collaborator raises *)

(** What a call to a collaborator does: return a value or raise. *)
Inductive outcome (A : Type) : Type :=
| Ret (value : A)
| Raise (e : exn).

Arguments Ret {A} value.
Arguments Raise {A} e.

(** A file object as returned by [_open_input_file]: [sys.stdin] or a file
    with a [name]. *)
Inductive handle : Type :=
| Stdin
| File (name : string).

Definition handle_eqb (f g : handle) : bool :=
  match f, g with
  | Stdin, Stdin => true
  | File n, File m => String.eqb n m
  | _, _ => false
  end.

(** Modelled from the spec: [csvkit.table.Table] is not among the sources.
    The spec's InferredSchema is an ordered sequence of (column name,
    inferred type, nullability) tuples plus zero or more data rows; an empty
    schema (no columns) is falsy. *)
Record Column : Type := {
  column_name : string;
  column_type : string;
  column_nullable : bool
}.

Definition cell : Type := option string.

Record Table : Type := {
  columns : list Column;
  data_rows : list (list cell)
}.

Definition headers (t : Table) : list string := map column_name (columns t).
Definition to_rows (t : Table) : list (list cell) := data_rows t.
Definition count_rows (t : Table) : nat := List.length (data_rows t).

(** [if csv_table:] on what the inference step returned (empty or absent
    schemas are falsy). *)
Definition table_bool (t : option Table) : bool :=
  match t with
  | None => false
  | Some t => match columns t with [] => false | _ :: _ => true end
  end.

(** A Python [dict] built from a sequence of pairs: a later pair with the
    same key overwrites the value and keeps the key's position. *)
Fixpoint dict_set (k : string) (v : cell) (d : list (string * cell)) : list (string * cell) :=
  match d with
  | [] => [(k, v)]
  | (k', v') :: d' =>
      if String.eqb k' k then (k', v) :: d' else (k', v') :: dict_set k v d'
  end.

Definition dict (pairs : list (string * cell)) : list (string * cell) :=
  fold_left (fun d kv => dict_set (fst kv) (snd kv) d) pairs [].

(** Modelled from the spec: [csvkit.sql.make_table] is not among the
    sources.  The spec's [buildTableDef(schema, name, noConstraints,
    optionalDbSchema, optionalCatalog)] builds a table definition out of its
    arguments; the record keeps them. *)
Record SqlTable : Type := make_table {
  sql_schema : Table;
  sql_name : string;
  sql_no_constraints : bool;
  sql_db_schema : option string;
  sql_bound : bool  (* a metadata catalog was passed *)
}.

(** The result of [connection.execute(q)]: [_metadata] is [None] for a
    statement that returns no rows. *)
Record ResultProxy : Type := {
  metadata_keys : option (list string);
  result_rows : list (list string)
}.

(** The keyword arguments [main] passes to [Table.from_csv] unchanged. *)
Record CsvOptions : Type := {
  opt_sniff_limit : option Z;
  opt_blanks_as_nulls : bool;
  opt_infer_types : bool;
  opt_no_header_row : bool;
  opt_reader_kwargs : list (string * string)
}.

(** The parsed command line ([self.args]), with the fields [main] reads. *)
Module Args.
Record t : Type := mk {
  input_paths : list string;
  dialect : option string;
  connection_string : option string;
  query : option string;
  insert : bool;
  table_names : option string;
  no_constraints : bool;
  no_create : bool;
  blanks : bool;
  db_schema : option string;
  sniff_limit : option Z;
  no_inference : bool;
  no_header_row : bool;
  reader_kwargs : list (string * string)
}.
End Args.

(** ** Traces *)

(** One entry per effect of [main], in the order they happen.  Calls that
    can raise record their outcome. *)
Inductive event : Type :=
| EvOpen (path : string)
| EvGetConnection (target : string) (r : outcome unit)
| EvConnect (r : outcome unit)
| EvBegin (r : outcome unit)
| EvFromCsv (f : handle) (name : string) (r : outcome (option Table))
| EvClose (f : handle)
| EvCreate (t : SqlTable) (r : outcome unit)
| EvInsert (t : SqlTable) (records : list (list (string * cell))) (r : outcome unit)
| EvWrite (text : string)
| EvExecute (q : string) (r : outcome ResultProxy)
| EvWriteRow (row : list string)
| EvCommit (r : outcome unit)
| EvRollback
| EvConnClose.

Definition trace : Type := list event.

(** The collaborators.  Each answer may depend on everything that happened
    before the call. *)
Record World : Type := {
  get_connection : trace -> string -> outcome unit;
  engine_connect : trace -> outcome unit;
  connection_begin : trace -> outcome unit;
  from_csv : trace -> handle -> string -> CsvOptions -> outcome (option Table);
  sql_create : trace -> SqlTable -> outcome unit;
  execute_insert : trace -> SqlTable -> list (list (string * cell)) -> outcome unit;
  execute_query : trace -> string -> outcome ResultProxy;
  transaction_commit : trace -> outcome unit;
  make_create_table_statement : SqlTable -> option string -> string
}.

(** ** The monad *)

Definition M (A : Type) : Type := trace -> outcome A * trace.

Definition ret {A} (a : A) : M A := fun tr => (Ret a, tr).

Definition raise {A} (e : exn) : M A := fun tr => (Raise e, tr).

Definition bind {A B} (m : M A) (k : A -> M B) : M B :=
  fun tr =>
    match m tr with
    | (Ret a, tr') => k a tr'
    | (Raise e, tr') => (Raise e, tr')
    end.

Notation "x <- m ;; k" := (bind m (fun x => k))
  (at level 61, m at next level, right associativity).
Notation "m ;; k" := (bind m (fun _ => k))
  (at level 61, right associativity).

(** An effect that cannot raise. *)
Definition emit (e : event) : M unit := fun tr => (Ret tt, tr ++ [e]).

(** A call to a collaborator: ask the world, record the call and its
    outcome, and return or raise accordingly. *)
Definition perform {A} (ask : trace -> outcome A) (ev : outcome A -> event) : M A :=
  fun tr => let r := ask tr in (r, tr ++ [ev r]).

Definition when (b : bool) (m : M unit) : M unit := if b then m else ret tt.

Fixpoint for_each {A} (xs : list A) (body : A -> M unit) : M unit :=
  match xs with
  | [] => ret tt
  | x :: xs' => body x ;; for_each xs' body
  end.

(** ** [CSVSQL.main] *)

Definition nl : string := String (ascii_of_nat 10) EmptyString.
Definition tab : string := String (ascii_of_nat 9) EmptyString.

Definition dialect_message : string :=
  "The --dialect option is only valid when neither --db nor --query are specified.".
Definition insert_message : string :=
  "The --insert option is only valid when either --db or --query is specified.".
Definition no_create_message : string :=
  "The --no-create option is only valid --insert is also specified.".
Definition backend_message : string :=
  "You don't appear to have the necessary database backend installed for connection string you're trying to use. Available backends include:"
  ++ nl ++ nl ++ "Postgresql:" ++ tab ++ "pip install psycopg2" ++ nl
  ++ "MySQL:" ++ tab ++ tab ++ "pip install MySQL-python" ++ nl ++ nl
  ++ "For details on connection strings and other backends, please see the SQLAlchemy documentation on dialects at: "
  ++ nl ++ nl ++ "http://www.sqlalchemy.org/docs/dialects/" ++ nl ++ nl.

Definition memory_database : string := "sqlite:///:memory:".

Definition argparser_error {A} (message : string) : M A :=
  raise (ArgparserError message).

(** Modelled from the spec: [CSVKitUtility._open_input_file] is not among
    the sources.  It yields the InputSource of a path and performs no I/O:
    the default path ['-'] (or an empty path) stands for standard input,
    any other path for a file object that is opened only when its
    processing begins. *)
Definition _open_input_file (path : string) : M handle :=
  if String.eqb path "" || String.eqb path "-" then ret Stdin
  else ret (File path).

(** Lines 49-52. *)
Fixpoint open_input_files (paths : list string) : M (list handle) :=
  match paths with
  | [] => ret []
  | path :: paths' =>
      f <- _open_input_file path ;;
      input_files <- open_input_files paths' ;;
      ret (f :: input_files)
  end.

(** Lines 54-57. *)
Definition split_table_names (a : Args.t) : list string :=
  if truthy (Args.table_names a)
  then match Args.table_names a with
       | Some names => split "," names
       | None => []
       end
  else [].

(** Lines 59-62: the values of [connection_string] and [do_insert] after
    the in-memory default. *)
Definition effective_connection_string (a : Args.t) : option string :=
  if truthy (Args.query a) && negb (truthy (Args.connection_string a))
  then Some memory_database
  else Args.connection_string a.

Definition effective_do_insert (a : Args.t) : bool :=
  if truthy (Args.query a) && negb (truthy (Args.connection_string a))
  then true
  else Args.insert a.

(** Lines 64-71. *)
Definition check_options (a : Args.t) (connection_string : option string)
    (do_insert : bool) : M unit :=
  when (truthy (Args.dialect a) && truthy connection_string)
       (argparser_error dialect_message) ;;
  when (do_insert && negb (truthy connection_string))
       (argparser_error insert_message) ;;
  when (Args.no_create a && negb do_insert)
       (argparser_error no_create_message).

(** [try: ... except ...:] with a handler that decides per exception. *)
Definition try_except {A} (m : M A) (handler : exn -> M A) : M A :=
  fun tr =>
    match m tr with
    | (Ret a, tr') => (Ret a, tr')
    | (Raise e, tr') => handler e tr'
    end.

(** Lines 74-80. *)
Definition establish_connection (W : World) (connection_string : option string) : M unit :=
  when (truthy connection_string)
       (match connection_string with
        | Some target =>
            try_except
              (perform (fun tr => get_connection W tr target) (EvGetConnection target))
              (fun e => match e with
                        | ImportError _ => raise (ImportError backend_message)
                        | _ => raise e
                        end) ;;
            perform (engine_connect W) EvConnect ;;
            perform (connection_begin W) EvBegin
        | None => ret tt
        end).

(** The file name without directory and extension (line 91). *)
Definition filename_stem (name : string) : string :=
  fst (os_path.splitext (snd (os_path.split name))).

(** Lines 83-91: [table_names.pop(0)], or the fallback on [IndexError].
    Returns the name and what is left of [table_names]. *)
Definition resolve_table_name (table_names : list string) (f : handle)
    : string * list string :=
  match table_names with
  | name :: rest => (name, rest)
  | [] =>
      (match f with
       | Stdin => "stdin"
       | File name => filename_stem name
       end, [])
  end.

Definition csv_options (a : Args.t) : CsvOptions :=
  {| opt_sniff_limit := Args.sniff_limit a;
     opt_blanks_as_nulls := negb (Args.blanks a);
     opt_infer_types := negb (Args.no_inference a);
     opt_no_header_row := Args.no_header_row a;
     opt_reader_kwargs := Args.reader_kwargs a |}.

(** Lines 105-128: what is done with the inferred table. *)
Definition output_table (W : World) (a : Args.t)
    (connection_string : option string) (do_insert : bool)
    (table_name : string) (csv_table : option Table) : M unit :=
  match csv_table with
  | Some t =>
      if table_bool csv_table then
        if truthy connection_string then
          let sql_table :=
            make_table t table_name (Args.no_constraints a) (Args.db_schema a) true in
          when (negb (Args.no_create a))
               (perform (fun tr => sql_create W tr sql_table) (EvCreate sql_table)) ;;
          when (do_insert && Nat.ltb 0 (count_rows t))
               (let records := map (fun row => dict (combine (headers t) row)) (to_rows t) in
                perform (fun tr => execute_insert W tr sql_table records)
                        (EvInsert sql_table records))
        else
          let sql_table := make_table t table_name (Args.no_constraints a) None false in
          emit (EvWrite (make_create_table_statement W sql_table (Args.dialect a) ++ nl))
      else ret tt
  | None => ret tt
  end.

(** Modelled from the spec: each InputSource is opened only when its
    processing begins.  The file object is opened at its first use in the
    loop body ([f.name] at line 91, or the read inside [Table.from_csv] at
    line 93), either way right before the inference step; standard input
    is open already.  A file that cannot be opened shows as the failure of
    the inference step. *)
Definition opening (f : handle) : trace :=
  match f with
  | Stdin => []
  | File name => [EvOpen name]
  end.

Definition open_on_first_use (f : handle) : M unit :=
  fun tr => (Ret tt, tr ++ opening f).

(** Lines 93-128: one input file, once its table name is known. *)
Definition process_input_file (W : World) (a : Args.t)
    (connection_string : option string) (do_insert : bool)
    (f : handle) (table_name : string) : M unit :=
  open_on_first_use f ;;
  csv_table <- perform (fun tr => from_csv W tr f table_name (csv_options a))
                       (EvFromCsv f table_name) ;;
  emit (EvClose f) ;;
  output_table W a connection_string do_insert table_name csv_table.

(** Lines 82-128: the loop over [self.input_files], threading the shrinking
    list [table_names]. *)
Fixpoint process_input_files (W : World) (a : Args.t)
    (connection_string : option string) (do_insert : bool)
    (input_files : list handle) (table_names : list string) : M unit :=
  match input_files with
  | [] => ret tt
  | f :: input_files' =>
      let (table_name, table_names') := resolve_table_name table_names f in
      process_input_file W a connection_string do_insert f table_name ;;
      process_input_files W a connection_string do_insert input_files' table_names'
  end.

(** Lines 136-138: execute the non-empty pieces, keeping the last result. *)
Fixpoint execute_queries (W : World) (queries : list string)
    (rows : option ResultProxy) : M (option ResultProxy) :=
  match queries with
  | [] => ret rows
  | q :: queries' =>
      if nonempty q then
        r <- perform (fun tr => execute_query W tr q) (EvExecute q) ;;
        execute_queries W queries' (Some r)
      else execute_queries W queries' rows
  end.

(** Lines 141-147: [rows._metadata.keys] raises [AttributeError] when
    [rows] is [None] or has no metadata, which the [except] clause
    swallows before anything is written. *)
Definition write_result (rows : option ResultProxy) : M unit :=
  match rows with
  | None => ret tt
  | Some r =>
      match metadata_keys r with
      | None => ret tt
      | Some keys =>
          emit (EvWriteRow keys) ;;
          for_each (result_rows r) (fun row => emit (EvWriteRow row))
      end
  end.

(** Lines 131-147. *)
Definition run_queries (W : World) (query : string) : M unit :=
  let queries := split ";" query in
  rows <- execute_queries W queries None ;;
  write_result rows.

(** Lines 130-150. *)
Definition finish (W : World) (connection_string query : option string) : M unit :=
  when (truthy connection_string)
       (when (truthy query)
             (match query with
              | Some q => run_queries W q
              | None => ret tt
              end) ;;
        perform (transaction_commit W) EvCommit ;;
        emit EvConnClose).

Definition main (W : World) (a : Args.t) : M unit :=
  let query := Args.query a in
  input_files <- open_input_files (Args.input_paths a) ;;
  let table_names := split_table_names a in
  let connection_string := effective_connection_string a in
  let do_insert := effective_do_insert a in
  check_options a connection_string do_insert ;;
  establish_connection W connection_string ;;
  process_input_files W a connection_string do_insert input_files table_names ;;
  finish W connection_string query.

(** ** Sample command lines and worlds *)

(** [csvsql] with no option at all, reading standard input. *)
Definition default_args : Args.t :=
  {| Args.input_paths := ["-"];
     Args.dialect := None;
     Args.connection_string := None;
     Args.query := None;
     Args.insert := false;
     Args.table_names := None;
     Args.no_constraints := false;
     Args.no_create := false;
     Args.blanks := false;
     Args.db_schema := None;
     Args.sniff_limit := None;
     Args.no_inference := false;
     Args.no_header_row := false;
     Args.reader_kwargs := [] |}.

Definition set_input_paths (paths : list string) (a : Args.t) : Args.t :=
  Args.mk paths (Args.dialect a) (Args.connection_string a) (Args.query a)
    (Args.insert a) (Args.table_names a) (Args.no_constraints a) (Args.no_create a)
    (Args.blanks a) (Args.db_schema a) (Args.sniff_limit a) (Args.no_inference a)
    (Args.no_header_row a) (Args.reader_kwargs a).

Definition set_dialect (d : option string) (a : Args.t) : Args.t :=
  Args.mk (Args.input_paths a) d (Args.connection_string a) (Args.query a)
    (Args.insert a) (Args.table_names a) (Args.no_constraints a) (Args.no_create a)
    (Args.blanks a) (Args.db_schema a) (Args.sniff_limit a) (Args.no_inference a)
    (Args.no_header_row a) (Args.reader_kwargs a).

Definition set_connection_string (c : option string) (a : Args.t) : Args.t :=
  Args.mk (Args.input_paths a) (Args.dialect a) c (Args.query a)
    (Args.insert a) (Args.table_names a) (Args.no_constraints a) (Args.no_create a)
    (Args.blanks a) (Args.db_schema a) (Args.sniff_limit a) (Args.no_inference a)
    (Args.no_header_row a) (Args.reader_kwargs a).

Definition set_query (q : option string) (a : Args.t) : Args.t :=
  Args.mk (Args.input_paths a) (Args.dialect a) (Args.connection_string a) q
    (Args.insert a) (Args.table_names a) (Args.no_constraints a) (Args.no_create a)
    (Args.blanks a) (Args.db_schema a) (Args.sniff_limit a) (Args.no_inference a)
    (Args.no_header_row a) (Args.reader_kwargs a).

Definition set_insert (b : bool) (a : Args.t) : Args.t :=
  Args.mk (Args.input_paths a) (Args.dialect a) (Args.connection_string a) (Args.query a)
    b (Args.table_names a) (Args.no_constraints a) (Args.no_create a)
    (Args.blanks a) (Args.db_schema a) (Args.sniff_limit a) (Args.no_inference a)
    (Args.no_header_row a) (Args.reader_kwargs a).

Definition set_table_names (n : option string) (a : Args.t) : Args.t :=
  Args.mk (Args.input_paths a) (Args.dialect a) (Args.connection_string a) (Args.query a)
    (Args.insert a) n (Args.no_constraints a) (Args.no_create a)
    (Args.blanks a) (Args.db_schema a) (Args.sniff_limit a) (Args.no_inference a)
    (Args.no_header_row a) (Args.reader_kwargs a).

Definition set_no_create (b : bool) (a : Args.t) : Args.t :=
  Args.mk (Args.input_paths a) (Args.dialect a) (Args.connection_string a) (Args.query a)
    (Args.insert a) (Args.table_names a) (Args.no_constraints a) b
    (Args.blanks a) (Args.db_schema a) (Args.sniff_limit a) (Args.no_inference a)
    (Args.no_header_row a) (Args.reader_kwargs a).

(** A table with the given column names and rows of text cells. *)
Definition sample_table (names : list string) (rows : list (list string)) : Table :=
  {| columns := map (fun n => {| column_name := n; column_type := "VARCHAR";
                                 column_nullable := false |}) names;
     data_rows := map (map (@Some string)) rows |}.

(** A world in which nothing fails: every file holds one column [a] and
    one row, except files named [empty.csv], which hold nothing; every
    query returns the single row [1] under the header [1]. *)
Definition quiet_world : World :=
  {| get_connection := fun _ _ => Ret tt;
     engine_connect := fun _ => Ret tt;
     connection_begin := fun _ => Ret tt;
     from_csv := fun _ f _ _ =>
       if handle_eqb f (File "empty.csv") then Ret (Some (sample_table [] []))
       else Ret (Some (sample_table ["a"] [["1"]]));
     sql_create := fun _ _ => Ret tt;
     execute_insert := fun _ _ _ => Ret tt;
     execute_query := fun _ _ =>
       Ret {| metadata_keys := Some ["1"]; result_rows := [["1"]] |};
     transaction_commit := fun _ => Ret tt;
     make_create_table_statement := fun t _ =>
       ("CREATE TABLE " ++ sql_name t ++ " (...);")%string |}.

(** The same world, except that files named [bad.csv] make the inference
    step raise. *)
Definition decoding_error : exn := OtherError "UnicodeDecodeError" "invalid start byte".

Definition strict_world : World :=
  {| get_connection := get_connection quiet_world;
     engine_connect := engine_connect quiet_world;
     connection_begin := connection_begin quiet_world;
     from_csv := fun tr f name o =>
       if handle_eqb f (File "bad.csv") then Raise decoding_error
       else from_csv quiet_world tr f name o;
     sql_create := sql_create quiet_world;
     execute_insert := execute_insert quiet_world;
     execute_query := execute_query quiet_world;
     transaction_commit := transaction_commit quiet_world;
     make_create_table_statement := make_create_table_statement quiet_world |}.

(** ** Trace observations *)

(** The file object [_open_input_file] yields for a path. *)
Definition handle_of_path (path : string) : handle :=
  if String.eqb path "" || String.eqb path "-" then Stdin else File path.

Definition is_open (e : event) : bool :=
  match e with EvOpen _ => true | _ => false end.

Definition is_file_close (e : event) : bool :=
  match e with EvClose (File _) => true | _ => false end.

(** Number of input files open after each event of a trace, starting from
    [n] open files, and the highest number reached. *)
Fixpoint open_levels (n : nat) (tr : trace) : list nat :=
  match tr with
  | [] => []
  | e :: tr' =>
      let n' := if is_open e then S n
                else if is_file_close e then Nat.pred n
                else n in
      n' :: open_levels n' tr'
  end.

Definition peak_open (tr : trace) : nat := list_max (open_levels 0 tr).

(** The flag combinations the option checks reject, on the values the
    checks see (after the in-memory default). *)
Definition invalid_combination (a : Args.t) : bool :=
  (truthy (Args.dialect a) && truthy (effective_connection_string a))
  || (effective_do_insert a && negb (truthy (effective_connection_string a)))
  || (Args.no_create a && negb (effective_do_insert a)).

(** The first message the checks of lines 64-71 report, if any. *)
Definition option_error (a : Args.t) (connection_string : option string)
    (do_insert : bool) : option string :=
  if truthy (Args.dialect a) && truthy connection_string then Some dialect_message
  else if do_insert && negb (truthy connection_string) then Some insert_message
  else if Args.no_create a && negb do_insert then Some no_create_message
  else None.

(** The run whose [--db] is the in-memory database and whose [--insert] is
    set. *)
Definition with_memory_database (a : Args.t) : Args.t :=
  set_insert true (set_connection_string (Some memory_database) a).

(** Everything [main] does once the options have passed the checks
    (lines 73-150). *)
Definition after_checks (W : World) (a : Args.t) : M unit :=
  establish_connection W (effective_connection_string a) ;;
  process_input_files W a (effective_connection_string a) (effective_do_insert a)
    (map handle_of_path (Args.input_paths a)) (split_table_names a) ;;
  finish W (effective_connection_string a) (Args.query a).


Definition is_argparser_error {A} (r : outcome A) : bool :=
  match r with
  | Raise (ArgparserError _) => true
  | _ => false
  end.

(** [csvsql --dialect sqlite --db sqlite:///x.db a.csv] *)
Definition dialect_and_db_args : Args.t :=
  set_input_paths ["a.csv"]
    (set_dialect (Some "sqlite")
       (set_connection_string (Some "sqlite:///x.db") default_args)).

(** [csvsql --no-create --query 'SELECT 1'] *)
Definition no_create_query_args : Args.t :=
  set_no_create true (set_query (Some "SELECT 1") default_args).

(** [csvsql --no-create --db sqlite:///x.db --query 'SELECT 1'] *)
Definition no_create_db_args : Args.t :=
  set_connection_string (Some "sqlite:///x.db") no_create_query_args.

(** [csvsql --dialect sqlite --query 'SELECT 1'] *)
Definition dialect_and_query_args : Args.t :=
  set_dialect (Some "sqlite") (set_query (Some "SELECT 1") default_args).

(** [csvsql --query 'SELECT 1;' a.csv] *)
Definition query_only_args : Args.t :=
  set_input_paths ["a.csv"] (set_query (Some "SELECT 1;") default_args).

(** ** Properties of the events a computation adds *)

(** [emits Q m]: from any trace, [m] only appends events, and what it
    appends satisfies [Q]. *)
Definition emits {A} (Q : trace -> Prop) (m : M A) : Prop :=
  forall tr, exists d, snd (m tr) = tr ++ d /\ Q d.

(** Properties of appended events that survive sequencing. *)
Class Local (Q : trace -> Prop) : Prop := {
  local_nil : Q [];
  local_app : forall d1 d2, Q d1 -> Q d2 -> Q (d1 ++ d2)
}.

(** A successful inference step. *)
Definition is_inference (e : event) : bool :=
  match e with
  | EvFromCsv _ _ (Ret _) => true
  | _ => false
  end.

(** Every successful inference step is directly followed by the closing
    of the file it read. *)
Fixpoint closed_after_inference (tr : trace) : bool :=
  match tr with
  | [] => true
  | EvFromCsv f _ (Ret _) :: tr' =>
      match tr' with
      | EvClose g :: _ => handle_eqb f g
      | _ => false
      end && closed_after_inference tr'
  | _ :: tr' => closed_after_inference tr'
  end.

(** Every opening of a file is directly followed by the inference step
    on that file. *)
Fixpoint read_after_open (tr : trace) : bool :=
  match tr with
  | [] => true
  | EvOpen p :: tr' =>
      match tr' with
      | EvFromCsv g _ _ :: _ => handle_eqb (File p) g
      | _ => false
      end && read_after_open tr'
  | _ :: tr' => read_after_open tr'
  end.

(** At most one input file is open along the events [d], counted from a
    point where none is; [balanced] if moreover none is left open. *)
Definition bounded (d : trace) : Prop :=
  Forall (fun k => k <= 1) (open_levels 0 d).

Definition balanced (d : trace) : Prop :=
  bounded d /\ last (open_levels 0 d) 0 = 0.

(** Neither the opening nor the closing of a file. *)
Definition no_handle_event (e : event) : Prop :=
  is_open e = false /\ is_file_close e = false.

(** [yields QR QE m]: from any trace, [m] only appends events; they
    satisfy [QR] when [m] returns and [QE] when it raises. *)
Definition yields {A} (QR QE : trace -> Prop) (m : M A) : Prop :=
  forall tr, exists d,
    snd (m tr) = tr ++ d
    /\ match fst (m tr) with
       | Ret _ => QR d
       | Raise _ => QE d
       end.

(** Pairs of properties that survive sequencing: a computation that
    returns may be followed by one that returns or raises. *)
Class Sequential (QR QE : trace -> Prop) : Prop := {
  seq_nil : QR [];
  seq_ret : forall d1 d2, QR d1 -> QR d2 -> QR (d1 ++ d2);
  seq_raise : forall d1 d2, QR d1 -> QE d2 -> QE (d1 ++ d2)
}.

(** [csvsql a.csv b.csv] *)
Definition two_files_args : Args.t :=
  set_input_paths ["a.csv"; "b.csv"] default_args.

(** The events that end a transaction: a commit (attempted or done) or a
    rollback. *)
Definition is_transaction_end (e : event) : bool :=
  match e with
  | EvCommit _ | EvRollback => true
  | _ => false
  end.

Definition outside_commit (e : event) : Prop := is_transaction_end e = false.

(** A step that failed: a call to a collaborator that raised. *)
Definition is_failure (e : event) : bool :=
  match e with
  | EvGetConnection _ (Raise _) | EvConnect (Raise _) | EvBegin (Raise _)
  | EvFromCsv _ _ (Raise _) | EvCreate _ (Raise _) | EvInsert _ _ (Raise _)
  | EvExecute _ (Raise _) | EvCommit (Raise _) => true
  | _ => false
  end.

(** No step failed; no step failed except possibly the last one. *)
Definition all_succeeded (d : trace) : Prop :=
  Forall (fun e => is_failure e = false) d.

Definition failed_at_most_last (d : trace) : Prop :=
  all_succeeded d
  \/ exists d' e, d = d' ++ [e] /\ all_succeeded d' /\ is_failure e = true.

(** A world in which every insert fails. *)
Definition integrity_error : exn := OtherError "IntegrityError" "constraint failed".

Definition failing_insert_world : World :=
  {| get_connection := get_connection quiet_world;
     engine_connect := engine_connect quiet_world;
     connection_begin := connection_begin quiet_world;
     from_csv := from_csv quiet_world;
     sql_create := sql_create quiet_world;
     execute_insert := fun _ _ _ => Raise integrity_error;
     execute_query := execute_query quiet_world;
     transaction_commit := transaction_commit quiet_world;
     make_create_table_statement := make_create_table_statement quiet_world |}.

(** [csvsql --db sqlite:///x.db --insert --query 'SELECT 1;' a.csv] *)
Definition live_args : Args.t :=
  set_insert true (set_connection_string (Some "sqlite:///x.db") query_only_args).

(** The successful inference steps of a trace, in order: the file read,
    the table name used and the table inferred. *)
Definition inferences (tr : trace) : list (handle * string * option Table) :=
  flat_map (fun e => match e with
                     | EvFromCsv f name (Ret t) => [(f, name, t)]
                     | _ => []
                     end) tr.

(** The files handed to the inference step, whether it returned or not. *)
Definition sources (tr : trace) : list handle :=
  flat_map (fun e => match e with
                     | EvFromCsv f _ _ => [f]
                     | _ => []
                     end) tr.

(** What was written to the output stream, in order. *)
Definition is_output (e : event) : bool :=
  match e with
  | EvWrite _ | EvWriteRow _ => true
  | _ => false
  end.

Definition output (tr : trace) : trace := filter is_output tr.

(** The line a static run writes for an inference step: the rendered
    statement of a non-empty table, nothing for an empty one. *)
Definition statement_line (W : World) (a : Args.t)
    (i : handle * string * option Table) : trace :=
  match i with
  | (_, name, Some t) =>
      if table_bool (Some t)
      then [EvWrite (make_create_table_statement W
                       (make_table t name (Args.no_constraints a) None false)
                       (Args.dialect a) ++ nl)]
      else []
  | (_, _, None) => []
  end.

(** The fallback table name of a source. *)
Definition fallback_name (f : handle) : string :=
  match f with
  | Stdin => "stdin"
  | File name => filename_stem name
  end.

(** The rendering of a result set: the header row, then one row per
    record; nothing when there is no result set. *)
Definition rendering (rows : option ResultProxy) : trace :=
  match rows with
  | Some r =>
      match metadata_keys r with
      | Some keys => EvWriteRow keys :: map EvWriteRow (result_rows r)
      | None => []
      end
  | None => []
  end.

(** The reading of "the run continues and processes the remaining
    sources": every input file reaches the inference step. *)
Definition processes_all_sources (W : World) (a : Args.t) : Prop :=
  sources (snd (main W a [])) = map handle_of_path (Args.input_paths a).

(** [csvsql bad.csv good.csv] *)
Definition bad_then_good_args : Args.t :=
  set_input_paths ["bad.csv"; "good.csv"] default_args.

(** [csvsql empty.csv good.csv] *)
Definition empty_then_good_args : Args.t :=
  set_input_paths ["empty.csv"; "good.csv"] default_args.

(** [csvsql --tables x a.csv dir/b.csv -] *)
Definition named_args : Args.t :=
  set_input_paths ["a.csv"; "dir/b.csv"; "-"]
    (set_table_names (Some "x") default_args).

(** The table names the loop resolves for the files, in order. *)
Fixpoint resolved_names (fs : list handle) (table_names : list string) : list string :=
  match fs with
  | [] => []
  | f :: fs' =>
      let (name, table_names') := resolve_table_name table_names f in
      name :: resolved_names fs' table_names'
  end.

Definition is_from_csv (e : event) : bool :=
  match e with
  | EvFromCsv _ _ _ => true
  | _ => false
  end.

(** Does the character occur in the string? *)
Fixpoint has_char (c : ascii) (s : string) : bool :=
  match s with
  | EmptyString => false
  | String x rest => Ascii.eqb x c || has_char c rest
  end.

(** ** Further trace observations *)

(** The three phases that follow the option checks: setting the connection
    up, ingesting the input files, and finishing (queries and commit). *)
Definition is_connection_event (e : event) : bool :=
  match e with
  | EvGetConnection _ _ | EvConnect _ | EvBegin _ => true
  | _ => false
  end.

Definition is_ingest_event (e : event) : bool :=
  match e with
  | EvOpen _ | EvFromCsv _ _ _ | EvClose _
  | EvCreate _ _ | EvInsert _ _ _ | EvWrite _ => true
  | _ => false
  end.

Definition is_finish_event (e : event) : bool :=
  match e with
  | EvExecute _ _ | EvWriteRow _ | EvCommit _ | EvConnClose => true
  | _ => false
  end.

(** Any contact with the database. *)
Definition is_database_event (e : event) : bool :=
  match e with
  | EvGetConnection _ _ | EvConnect _ | EvBegin _
  | EvCreate _ _ | EvInsert _ _ _ | EvExecute _ _
  | EvCommit _ | EvRollback | EvConnClose => true
  | _ => false
  end.

Definition is_write (e : event) : bool :=
  match e with EvWrite _ => true | _ => false end.

Definition is_create (e : event) : bool :=
  match e with EvCreate _ _ => true | _ => false end.

Definition is_insert (e : event) : bool :=
  match e with EvInsert _ _ _ => true | _ => false end.

(** The file objects closed along a trace, in order. *)
Definition closes (tr : trace) : list handle :=
  flat_map (fun e => match e with EvClose f => [f] | _ => [] end) tr.

(** What a table event must satisfy: the table has columns, and an insert
    carries one record per data row, at least one, each built from the
    headers and the row. *)
Definition table_event_ok (e : event) : Prop :=
  match e with
  | EvCreate t _ => table_bool (Some (sql_schema t)) = true
  | EvInsert t records _ =>
      table_bool (Some (sql_schema t)) = true
      /\ records <> []
      /\ records = map (fun row => dict (combine (headers (sql_schema t)) row))
                       (to_rows (sql_schema t))
  | _ => True
  end.

(** What an executed statement must satisfy: it is not empty and holds no
    semicolon. *)
Definition query_event_ok (e : event) : Prop :=
  match e with
  | EvExecute q _ => nonempty q = true /\ has_char ";" q = false
  | _ => True
  end.

(** [d[k]] and the value the last pair with key [k] gives. *)
Fixpoint dict_get (k : string) (d : list (string * cell)) : option cell :=
  match d with
  | [] => None
  | (k', v) :: d' => if String.eqb k' k then Some v else dict_get k d'
  end.

Fixpoint last_value (k : string) (pairs : list (string * cell)) : option cell :=
  match pairs with
  | [] => None
  | (k', v) :: pairs' =>
      match last_value k pairs' with
      | Some v' => Some v'
      | None => if String.eqb k' k then Some v else None
      end
  end.

(** [sep.join(pieces)] for a one-character separator. *)
Definition join (sep : ascii) (pieces : list string) : string :=
  String.concat (String sep EmptyString) pieces.

Definition set_db_schema (d : option string) (a : Args.t) : Args.t :=
  Args.mk (Args.input_paths a) (Args.dialect a) (Args.connection_string a) (Args.query a)
    (Args.insert a) (Args.table_names a) (Args.no_constraints a) (Args.no_create a)
    (Args.blanks a) d (Args.sniff_limit a) (Args.no_inference a)
    (Args.no_header_row a) (Args.reader_kwargs a).

(** A world in which no database driver is installed. *)
Definition driverless_world : World :=
  {| get_connection := fun _ _ => Raise (ImportError "No module named psycopg2");
     engine_connect := engine_connect quiet_world;
     connection_begin := connection_begin quiet_world;
     from_csv := from_csv quiet_world;
     sql_create := sql_create quiet_world;
     execute_insert := execute_insert quiet_world;
     execute_query := execute_query quiet_world;
     transaction_commit := transaction_commit quiet_world;
     make_create_table_statement := make_create_table_statement quiet_world |}.

(** [csvsql --insert a.csv] *)
Definition insert_only_args : Args.t :=
  set_input_paths ["a.csv"] (set_insert true default_args).

(** [csvsql --db sqlite:///x.db --insert --no-create a.csv] *)
Definition no_create_live_args : Args.t :=
  set_no_create true
    (set_insert true
       (set_connection_string (Some "sqlite:///x.db")
          (set_input_paths ["a.csv"] default_args))).

(** [csvsql --db sqlite:///x.db a.csv] *)
Definition create_only_args : Args.t :=
  set_connection_string (Some "sqlite:///x.db")
    (set_input_paths ["a.csv"] default_args).

(** [csvsql --tables x,y,z a.csv b.csv] *)
Definition surplus_names_args : Args.t :=
  set_table_names (Some "x,y,z") two_files_args.

(** [csvsql --db-schema s a.csv b.csv] *)
Definition db_schema_args : Args.t :=
  set_db_schema (Some "s") two_files_args.

(** Neither an inference step nor the closing of a file. *)
Definition is_silent (e : event) : Prop :=
  match e with
  | EvFromCsv _ _ _ | EvClose _ => False
  | _ => True
  end.

(** ** Observations on a run against the in-memory database *)

(** The events of a connection set up without failure. *)
Definition connection_setup (target : string) : trace :=
  [EvGetConnection target (Ret tt); EvConnect (Ret tt); EvBegin (Ret tt)].

(** The tables created along a trace, in order. *)
Definition creates (tr : trace) : list SqlTable :=
  flat_map (fun e => match e with EvCreate t _ => [t] | _ => [] end) tr.

(** The inserts made along a trace, in order: the table and its records. *)
Definition inserts (tr : trace) : list (SqlTable * list (list (string * cell))) :=
  flat_map (fun e => match e with
                     | EvInsert t records _ => [(t, records)]
                     | _ => []
                     end) tr.

(** The statements executed along a trace, in order. *)
Definition executed (tr : trace) : list string :=
  flat_map (fun e => match e with EvExecute q _ => [q] | _ => [] end) tr.

(** What a live run with insertion does with an inference step: a table
    with columns is created unless [--no-create] is given, and its rows are
    inserted, one record per row, when there is at least one. *)
Definition expected_create (a : Args.t) (i : handle * string * option Table)
    : list SqlTable :=
  match i with
  | (_, name, Some t) =>
      if table_bool (Some t) && negb (Args.no_create a)
      then [make_table t name (Args.no_constraints a) (Args.db_schema a) true]
      else []
  | (_, _, None) => []
  end.

Definition expected_insert (a : Args.t) (i : handle * string * option Table)
    : list (SqlTable * list (list (string * cell))) :=
  match i with
  | (_, name, Some t) =>
      if table_bool (Some t) && Nat.ltb 0 (count_rows t)
      then [(make_table t name (Args.no_constraints a) (Args.db_schema a) true,
             map (fun row => dict (combine (headers t) row)) (to_rows t))]
      else []
  | (_, _, None) => []
  end.

(** The non-empty pieces of the query string. *)
Definition query_statements (a : Args.t) : list string :=
  match Args.query a with
  | Some q => filter nonempty (split ";" q)
  | None => []
  end.

(** * Properties *)

(** ** File name stems *)

Lemma rfind_from_app (c : ascii) (s1 s2 : string) (i last : Z) :
  rfind_from c (s1 ++ s2) i last
  = rfind_from c s2 (i + Z.of_nat (String.length s1)) (rfind_from c s1 i last).
Proof.
  revert i last. induction s1 as [|x s1 IH]; intros i last.
  - simpl. now rewrite Z.add_0_r.
  - cbn [append rfind_from String.length]. rewrite IH. f_equal. lia.
Qed.

Lemma rfind_from_absent (c : ascii) (s : string) (i last : Z) :
  has_char c s = false -> rfind_from c s i last = last.
Proof.
  revert i last. induction s as [|x s IH]; intros i last H; [reflexivity|].
  simpl in H. apply orb_false_iff in H. destruct H as [Hx Hs].
  simpl. rewrite Hx. now apply IH.
Qed.

Lemma rfind_absent (c : ascii) (s : string) :
  has_char c s = false -> rfind c s = (-1)%Z.
Proof. apply rfind_from_absent. Qed.

Lemma rfind_last (c : ascii) (s1 s2 : string) :
  has_char c s2 = false ->
  rfind c (s1 ++ String c s2) = Z.of_nat (String.length s1).
Proof.
  intros H. unfold rfind. rewrite rfind_from_app. cbn [rfind_from].
  rewrite Ascii.eqb_refl. now rewrite rfind_from_absent.
Qed.

Lemma has_char_app (c : ascii) (s1 s2 : string) :
  has_char c (s1 ++ s2) = has_char c s1 || has_char c s2.
Proof.
  induction s1 as [|x s1 IH]; [reflexivity|].
  simpl. now rewrite IH, orb_assoc.
Qed.

Lemma length_append (s1 s2 : string) :
  String.length (s1 ++ s2) = String.length s1 + String.length s2.
Proof. induction s1 as [|x s1 IH]; simpl; [reflexivity|now rewrite IH]. Qed.

Lemma substring_all (s : string) : substring 0 (String.length s) s = s.
Proof. induction s as [|x s IH]; simpl; [reflexivity|now rewrite IH]. Qed.

Lemma substring_prefix (s1 s2 : string) :
  substring 0 (String.length s1) (s1 ++ s2) = s1.
Proof.
  induction s1 as [|x s1 IH]; simpl; [now destruct s2|now rewrite IH].
Qed.

Lemma substring_suffix (s1 s2 : string) :
  substring (String.length s1) (String.length s2) (s1 ++ s2) = s2.
Proof.
  induction s1 as [|x s1 IH]; simpl; [apply substring_all|exact IH].
Qed.

Lemma slice_to_prefix (s1 s2 : string) :
  slice_to (Z.of_nat (String.length s1)) (s1 ++ s2) = s1.
Proof. unfold slice_to. rewrite Nat2Z.id. apply substring_prefix. Qed.

Lemma slice_from_suffix (s1 s2 : string) :
  slice_from (Z.of_nat (String.length s1)) (s1 ++ s2) = s2.
Proof.
  unfold slice_from. rewrite Nat2Z.id, length_append.
  replace (String.length s1 + String.length s2 - String.length s1)
    with (String.length s2) by lia.
  apply substring_suffix.
Qed.

(** The tail of a path is what follows its last slash. *)
Lemma split_tail (dir tail : string) :
  has_char "/" tail = false ->
  snd (os_path.split (dir ++ String "/" tail)) = tail
  /\ snd (os_path.split tail) = tail.
Proof.
  intros H. unfold os_path.split. cbn [snd]. split.
  - rewrite rfind_last by exact H.
    replace (dir ++ String "/" tail)%string with ((dir ++ "/") ++ tail)%string.
    + replace (Z.of_nat (String.length dir) + 1)%Z
        with (Z.of_nat (String.length (dir ++ "/"))).
      * apply slice_from_suffix.
      * rewrite length_append. simpl. lia.
    + clear H. induction dir as [|x dir IH]; simpl; [reflexivity|now rewrite IH].
  - rewrite rfind_absent by exact H. apply (slice_from_suffix EmptyString tail).
Qed.

(** The extension of a file name starts at its last dot, provided the
    name does not start with it. *)
Lemma splitext_stem (base ext : string) :
  has_char "/" base = false ->
  has_char "." base = false ->
  base <> EmptyString ->
  has_char "/" ext = false ->
  has_char "." ext = false ->
  os_path.splitext (base ++ String "." ext) = (base, String "." ext).
Proof.
  intros Hsb Hdb Hne Hse Hde. unfold os_path.splitext.
  rewrite rfind_absent
    by (rewrite has_char_app; simpl; now rewrite Hsb, Hse).
  rewrite rfind_last by exact Hde.
  replace (-1 <? Z.of_nat (String.length base))%Z with true
    by (symmetry; apply Z.ltb_lt; lia).
  rewrite slice_to_prefix, slice_from_suffix.
  destruct base as [|b base]; [contradiction|].
  simpl in Hdb. apply orb_false_iff in Hdb. destruct Hdb as [Hb _].
  replace (Z.to_nat (Z.of_nat (String.length (String b base)) - (-1 + 1)))
    with (S (String.length base)) by (simpl String.length; lia).
  cbn [os_path.skip_leading_dots]. change (Z.to_nat (-1 + 1)) with 0.
  cbn [append get]. now rewrite Hb.
Qed.

(** X23: the stem of [dir/base.ext] and of [base.ext] is [base], when
    [base] is not empty and neither [base] nor [ext] holds a slash or a
    dot. *)
Lemma filename_stem_spec (dir base ext : string) :
  has_char "/" base = false ->
  has_char "." base = false ->
  base <> EmptyString ->
  has_char "/" ext = false ->
  has_char "." ext = false ->
  filename_stem (dir ++ String "/" (base ++ String "." ext)) = base
  /\ filename_stem (base ++ String "." ext) = base.
Proof.
  intros Hsb Hdb Hne Hse Hde. unfold filename_stem.
  assert (Ht : has_char "/" (base ++ String "." ext) = false)
    by (rewrite has_char_app; simpl; now rewrite Hsb, Hse).
  destruct (split_tail dir _ Ht) as [-> ->].
  now rewrite splitext_stem.
Qed.

Example filename_stem_examples :
  filename_stem "a.csv" = "a"
  /\ filename_stem "data/2016/b.csv" = "b"
  /\ filename_stem "c.tar.gz" = "c.tar"
  /\ filename_stem ".hidden" = ".hidden"
  /\ filename_stem "noext" = "noext".
Proof. repeat split. Qed.

(** ** Basic facts about the pieces of [main] *)

Lemma open_input_files_run (paths : list string) (tr : trace) :
  open_input_files paths tr = (Ret (map handle_of_path paths), tr).
Proof.
  revert tr.
  induction paths as [|path paths IH]; intros tr; simpl; [reflexivity|].
  unfold bind, _open_input_file, handle_of_path.
  destruct (String.eqb path "" || String.eqb path "-");
    unfold ret at 1; rewrite IH; reflexivity.
Qed.

Lemma check_options_run (a : Args.t) (cs : option string) (ins : bool) (tr : trace) :
  check_options a cs ins tr
  = (match option_error a cs ins with
     | Some message => Raise (ArgparserError message)
     | None => Ret tt
     end, tr).
Proof.
  unfold check_options, option_error, bind, when, argparser_error, raise, ret.
  destruct (truthy (Args.dialect a) && truthy cs); [reflexivity|].
  destruct (ins && negb (truthy cs)); [reflexivity|].
  destruct (Args.no_create a && negb ins); reflexivity.
Qed.

(** [main] after its first two steps. *)
Lemma main_run (W : World) (a : Args.t) (tr : trace) :
  main W a tr
  = match option_error a (effective_connection_string a) (effective_do_insert a) with
    | Some message => (Raise (ArgparserError message), tr)
    | None => after_checks W a tr
    end.
Proof.
  unfold main.
  unfold bind at 1. rewrite open_input_files_run.
  unfold bind at 1. rewrite check_options_run.
  destruct (option_error a _ _); reflexivity.
Qed.

Lemma option_error_invalid (a : Args.t) :
  invalid_combination a = true <->
  exists message,
    option_error a (effective_connection_string a) (effective_do_insert a) = Some message.
Proof.
  unfold invalid_combination, option_error.
  destruct (truthy (Args.dialect a) && truthy (effective_connection_string a));
    destruct (effective_do_insert a && negb (truthy (effective_connection_string a)));
    destruct (Args.no_create a && negb (effective_do_insert a)); simpl;
    split; intros H; try reflexivity; try discriminate; eauto;
    destruct H as [m H]; discriminate.
Qed.

(** The loop reads the command line only through the options it passes
    on: two command lines that agree on them run the same loop. *)
Lemma process_input_files_same_options (W : World) (a a' : Args.t)
    (cs : option string) (ins : bool) (fs : list handle) (names : list string)
    (tr : trace) :
  csv_options a' = csv_options a ->
  Args.no_constraints a' = Args.no_constraints a ->
  Args.db_schema a' = Args.db_schema a ->
  Args.no_create a' = Args.no_create a ->
  Args.dialect a' = Args.dialect a ->
  process_input_files W a cs ins fs names tr
  = process_input_files W a' cs ins fs names tr.
Proof.
  intros Ho Hc Hs Hn Hd. revert names tr.
  induction fs as [|f fs IH]; intros names tr; simpl; [reflexivity|].
  destruct (resolve_table_name names f) as [name names'].
  unfold bind.
  replace (process_input_file W a' cs ins f name tr)
    with (process_input_file W a cs ins f name tr).
  - destruct (process_input_file W a cs ins f name tr) as [[[]|e] tr1];
      [apply IH | reflexivity].
  - unfold process_input_file, output_table. now rewrite Ho, Hc, Hs, Hn, Hd.
Qed.

(** ** Sample runs *)

(** [csvsql --tables x a.csv dir/b.csv -]: the first file is named [x], the
    others fall back to their stem and to [stdin]. *)
Example named_run :
  map (fun i => (fst (fst i), snd (fst i)))
      (inferences (snd (main quiet_world named_args [])))
  = [(File "a.csv", "x"); (File "dir/b.csv", "b"); (Stdin, "stdin")].
Proof. reflexivity. Qed.

(** [csvsql --query 'SELECT 1;' a.csv]: the in-memory database is used,
    the file is created and inserted, and the output is the header [1] and
    the row [1]. *)
Example query_only_run :
  exists t records,
    main quiet_world query_only_args []
    = (Ret tt,
       [EvGetConnection "sqlite:///:memory:" (Ret tt); EvConnect (Ret tt); EvBegin (Ret tt);
        EvOpen "a.csv";
        EvFromCsv (File "a.csv") "a" (Ret (Some (sample_table ["a"] [["1"]])));
        EvClose (File "a.csv");
        EvCreate t (Ret tt); EvInsert t records (Ret tt);
        EvExecute "SELECT 1" (Ret {| metadata_keys := Some ["1"]; result_rows := [["1"]] |});
        EvWriteRow ["1"]; EvWriteRow ["1"];
        EvCommit (Ret tt); EvConnClose]).
Proof. do 2 eexists. vm_compute. reflexivity. Qed.

(** [csvsql empty.csv good.csv]: one statement, for the second file. *)
Example empty_then_good_run :
  output (snd (main quiet_world empty_then_good_args []))
  = [EvWrite ("CREATE TABLE good (...);" ++ nl)].
Proof. reflexivity. Qed.

(** ** Option validation *)

Section Validation.

Variable W : World.
Variable a : Args.t.


(** C4 (amended): [--no-create] without [--insert] is rejected unless a
    non-empty [--query] comes without a [--db], in which case insertion has
    been forced on before the check. *)
Theorem no_create_without_insert_fails :
  Args.no_create a = true ->
  Args.insert a = false ->
  truthy (Args.query a) && negb (truthy (Args.connection_string a)) = false ->
  is_argparser_error (fst (main W a [])) = true.
Proof.
  intros Hnc Hins Hq. rewrite main_run.
  unfold option_error, effective_do_insert, effective_connection_string.
  rewrite Hq, Hnc, Hins.
  destruct (truthy (Args.dialect a) && truthy (Args.connection_string a));
    [reflexivity|].
  simpl. reflexivity.
Qed.

(** C10: [--dialect] with a non-empty [--query] and no [--db] is rejected
    with the dialect message, the in-memory database counting as a target;
    nothing else has happened by then. *)
Theorem dialect_with_query_fails :
  truthy (Args.dialect a) = true ->
  truthy (Args.query a) = true ->
  truthy (Args.connection_string a) = false ->
  main W a [] = (Raise (ArgparserError dialect_message), []).
Proof.
  intros Hd Hq Hcs. rewrite main_run.
  unfold option_error, effective_connection_string.
  rewrite Hq, Hcs, Hd. reflexivity.
Qed.

End Validation.


Lemma no_create_without_insert_fails_witness :
  is_argparser_error (fst (main quiet_world no_create_db_args [])) = true.
Proof.
  apply (no_create_without_insert_fails quiet_world no_create_db_args);
    reflexivity.
Defined.

(** C4 as stated fails: [--no-create --query 'SELECT 1'] without
    [--insert] runs to completion. *)
Lemma no_create_query_counterexample :
  Args.no_create no_create_query_args = true
  /\ Args.insert no_create_query_args = false
  /\ is_argparser_error (fst (main quiet_world no_create_query_args [])) = false
  /\ fst (main quiet_world no_create_query_args []) = Ret tt.
Proof.
  repeat split; vm_compute; reflexivity.
Qed.

Lemma dialect_with_query_fails_witness :
  main quiet_world dialect_and_query_args []
  = (Raise (ArgparserError dialect_message), []).
Proof.
  apply (dialect_with_query_fails quiet_world dialect_and_query_args);
    reflexivity.
Defined.

(** ** Reasoning about appended events *)

Lemma bind_inv {A B} (m : M A) (k : A -> M B) (tr tr' : trace) (r : outcome B) :
  bind m k tr = (r, tr') ->
  (exists x tr1, m tr = (Ret x, tr1) /\ k x tr1 = (r, tr'))
  \/ (exists e, m tr = (Raise e, tr') /\ r = Raise e).
Proof.
  unfold bind. destruct (m tr) as [[x|e] tr1]; intros H.
  - left. eauto.
  - right. inversion H; subst. eauto.
Qed.

#[export] Instance Forall_local (P : event -> Prop) : Local (Forall P).
Proof.
  split; [constructor|]. intros d1 d2 H1 H2. apply Forall_app. now split.
Qed.

Section Emits.

Context {Q : trace -> Prop} {QL : Local Q}.

Lemma emits_ret {A} (x : A) : emits Q (ret x).
Proof. intros tr. exists []. simpl. rewrite app_nil_r. split; [reflexivity|apply local_nil]. Qed.

Lemma emits_raise {A} (e : exn) : emits Q (@raise A e).
Proof. intros tr. exists []. simpl. rewrite app_nil_r. split; [reflexivity|apply local_nil]. Qed.

Lemma emits_emit (e : event) : Q [e] -> emits Q (emit e).
Proof. intros H tr. exists [e]. now split. Qed.

Lemma emits_open_on_first_use (f : handle) :
  Q (opening f) -> emits Q (open_on_first_use f).
Proof. intros H tr. exists (opening f). now split. Qed.

Lemma emits_perform {A} (ask : trace -> outcome A) (ev : outcome A -> event) :
  (forall r, Q [ev r]) -> emits Q (perform ask ev).
Proof. intros H tr. exists [ev (ask tr)]. split; [reflexivity|apply H]. Qed.

Lemma emits_bind {A B} (m : M A) (k : A -> M B) :
  emits Q m -> (forall x, emits Q (k x)) -> emits Q (bind m k).
Proof.
  intros Hm Hk tr. unfold bind.
  destruct (Hm tr) as [d1 [E1 Q1]].
  destruct (m tr) as [[x|e] tr1]; simpl in E1; subst tr1.
  - destruct (Hk x (tr ++ d1)) as [d2 [E2 Q2]].
    exists (d1 ++ d2). rewrite E2, app_assoc. split; [reflexivity|].
    now apply local_app.
  - exists d1. now split.
Qed.

Lemma emits_try_except {A} (m : M A) (handler : exn -> M A) :
  emits Q m -> (forall e, emits Q (handler e)) -> emits Q (try_except m handler).
Proof.
  intros Hm Hh tr. unfold try_except.
  destruct (Hm tr) as [d1 [E1 Q1]].
  destruct (m tr) as [[x|e] tr1]; simpl in E1; subst tr1.
  - exists d1. now split.
  - destruct (Hh e (tr ++ d1)) as [d2 [E2 Q2]].
    exists (d1 ++ d2). rewrite E2, app_assoc. split; [reflexivity|].
    now apply local_app.
Qed.

Lemma emits_when (b : bool) (m : M unit) : emits Q m -> emits Q (when b m).
Proof. intros H. destruct b; simpl; [exact H|apply emits_ret]. Qed.

Lemma emits_for_each {A} (xs : list A) (body : A -> M unit) :
  (forall x, emits Q (body x)) -> emits Q (for_each xs body).
Proof.
  intros H. induction xs as [|x xs IH]; simpl.
  - apply emits_ret.
  - apply emits_bind; [apply H|intros _; exact IH].
Qed.

End Emits.

Lemma emits_weaken {A} (Q Q' : trace -> Prop) (m : M A) :
  (forall d, Q d -> Q' d) -> emits Q m -> emits Q' m.
Proof.
  intros H Hm tr. destruct (Hm tr) as [d [E HQ]]. exists d. split; auto.
Qed.

(** One step of a syntax-directed derivation of [emits]. *)
Ltac emits_step :=
  lazymatch goal with
  | |- emits _ (bind _ _) => apply emits_bind; [|intros ?]
  | |- emits _ (ret _) => apply emits_ret
  | |- emits _ (raise _) => apply emits_raise
  | |- emits _ (argparser_error _) => apply emits_raise
  | |- emits _ (emit _) => apply emits_emit
  | |- emits _ (perform _ _) => apply emits_perform; intros ?
  | |- emits _ (when _ _) => apply emits_when
  | |- emits _ (try_except _ _) => apply emits_try_except; [|intros ?]
  | |- emits _ (for_each _ _) => apply emits_for_each; intros ?
  | |- emits _ (match ?x with _ => _ end) => destruct x
  | |- emits _ (let _ := _ in _) => cbv zeta
  end.

Section EmitsOnly.

(** Computations whose events all belong to a class [P]. *)
Variable P : event -> Prop.
Variable W : World.

Lemma establish_connection_only (cs : option string) :
  (forall t r, P (EvGetConnection t r)) ->
  (forall r, P (EvConnect r)) ->
  (forall r, P (EvBegin r)) ->
  emits (Forall P) (establish_connection W cs).
Proof.
  intros H1 H2 H3. unfold establish_connection.
  repeat emits_step; repeat constructor; auto.
Qed.

Lemma output_table_only (a : Args.t) (cs : option string) (ins : bool)
    (name : string) (csv_table : option Table) :
  (forall t r, P (EvCreate t r)) ->
  (forall t rs r, P (EvInsert t rs r)) ->
  (forall s, P (EvWrite s)) ->
  emits (Forall P) (output_table W a cs ins name csv_table).
Proof.
  intros H3 H4 H5. unfold output_table.
  repeat emits_step; repeat constructor; auto.
Qed.

Lemma opening_only (f : handle) :
  (forall p, P (EvOpen p)) -> Forall P (opening f).
Proof. intros H. destruct f; repeat constructor. apply H. Qed.

Lemma process_input_file_only (a : Args.t) (cs : option string) (ins : bool)
    (f : handle) (name : string) :
  (forall p, P (EvOpen p)) ->
  (forall f n r, P (EvFromCsv f n r)) ->
  (forall f, P (EvClose f)) ->
  (forall t r, P (EvCreate t r)) ->
  (forall t rs r, P (EvInsert t rs r)) ->
  (forall s, P (EvWrite s)) ->
  emits (Forall P) (process_input_file W a cs ins f name).
Proof.
  intros H0 H1 H2 H3 H4 H5. unfold process_input_file.
  apply emits_bind; [apply emits_open_on_first_use, opening_only, H0|intros _].
  repeat emits_step; try (repeat constructor; auto).
  now apply output_table_only.
Qed.

Lemma process_input_files_only (a : Args.t) (cs : option string) (ins : bool)
    (fs : list handle) (names : list string) :
  (forall p, P (EvOpen p)) ->
  (forall f n r, P (EvFromCsv f n r)) ->
  (forall f, P (EvClose f)) ->
  (forall t r, P (EvCreate t r)) ->
  (forall t rs r, P (EvInsert t rs r)) ->
  (forall s, P (EvWrite s)) ->
  emits (Forall P) (process_input_files W a cs ins fs names).
Proof.
  intros H0 H1 H2 H3 H4 H5. revert names.
  induction fs as [|f fs IH]; intros names; simpl.
  - apply emits_ret.
  - destruct (resolve_table_name names f) as [name names'].
    apply emits_bind; [now apply process_input_file_only|intros _; apply IH].
Qed.

Lemma execute_queries_only (queries : list string) (rows : option ResultProxy) :
  (forall q r, P (EvExecute q r)) ->
  emits (Forall P) (execute_queries W queries rows).
Proof.
  intros H. revert rows.
  induction queries as [|q queries IH]; intros rows; simpl.
  - apply emits_ret.
  - destruct (nonempty q); [|apply IH].
    apply emits_bind; [|intros r; apply IH].
    emits_step. repeat constructor; auto.
Qed.

Lemma write_result_only (rows : option ResultProxy) :
  (forall row, P (EvWriteRow row)) ->
  emits (Forall P) (write_result rows).
Proof.
  intros H. unfold write_result.
  repeat emits_step; repeat constructor; auto.
Qed.

Lemma run_queries_only (query : string) :
  (forall q r, P (EvExecute q r)) ->
  (forall row, P (EvWriteRow row)) ->
  emits (Forall P) (run_queries W query).
Proof.
  intros H1 H2. unfold run_queries. cbv zeta.
  apply emits_bind; [now apply execute_queries_only|].
  intros rows. now apply write_result_only.
Qed.

Lemma finish_only (cs query : option string) :
  (forall q r, P (EvExecute q r)) ->
  (forall row, P (EvWriteRow row)) ->
  (forall r, P (EvCommit r)) ->
  P EvConnClose ->
  emits (Forall P) (finish W cs query).
Proof.
  intros H1 H2 H3 H4. unfold finish.
  apply emits_when. apply emits_bind.
  - apply emits_when. destruct query; [now apply run_queries_only|apply emits_ret].
  - intros _. repeat emits_step; repeat constructor; auto.
Qed.

End EmitsOnly.

(** ** Input file handles *)

Lemma handle_eqb_eq (f g : handle) : handle_eqb f g = true -> f = g.
Proof.
  destruct f as [|n], g as [|m]; simpl; intros H; try discriminate; trivial.
  apply String.eqb_eq in H. now subst.
Qed.

Lemma handle_eqb_refl (f : handle) : handle_eqb f f = true.
Proof. destruct f; simpl; [reflexivity|apply String.eqb_refl]. Qed.

Lemma closed_after_inference_app (d1 d2 : trace) :
  closed_after_inference d1 = true ->
  closed_after_inference d2 = true ->
  closed_after_inference (d1 ++ d2) = true.
Proof.
  intros H1 H2. induction d1 as [|e d1 IH]; [exact H2|].
  assert (Hd1 : closed_after_inference d1 = true).
  { destruct e as [| | | |f n [t|x]| | | | | | | | |]; simpl in H1; trivial.
    now apply andb_true_iff in H1. }
  specialize (IH Hd1).
  destruct e as [| | | |f n [t|x]| | | | | | | | |]; simpl; trivial.
  simpl in H1. apply andb_true_iff in H1. destruct H1 as [H1 _].
  destruct d1 as [|[] d1]; try discriminate H1.
  apply andb_true_iff. split; [exact H1|exact IH].
Qed.

#[export] Instance closed_after_inference_local :
  Local (fun d => closed_after_inference d = true).
Proof. split; [reflexivity|apply closed_after_inference_app]. Qed.

Lemma closed_after_inference_quiet (d : trace) :
  Forall (fun e => is_inference e = false) d -> closed_after_inference d = true.
Proof.
  induction 1 as [|e d He _ IH]; [reflexivity|].
  destruct e as [| | | |f n [t|x]| | | | | | | | |]; simpl; trivial.
  discriminate He.
Qed.

(** What the checker means. *)
Lemma closed_after_inference_spec (tr : trace) :
  closed_after_inference tr = true ->
  forall d1 f n t d2,
    tr = d1 ++ EvFromCsv f n (Ret t) :: d2 -> exists d3, d2 = EvClose f :: d3.
Proof.
  intros H d1. revert tr H.
  induction d1 as [|e d1 IH]; intros tr H f n t d2 E; subst tr.
  - simpl in H. apply andb_true_iff in H. destruct H as [H _].
    destruct d2 as [|[] d2]; try discriminate H.
    apply handle_eqb_eq in H. subst. eauto.
  - assert (H' : closed_after_inference (d1 ++ EvFromCsv f n (Ret t) :: d2) = true).
    { destruct e as [| | | |f' n' [t'|x]| | | | | | | | |]; simpl in H; trivial.
      now apply andb_true_iff in H. }
    exact (IH _ H' f n t d2 eq_refl).
Qed.

(** The first two steps of [process_input_file]. *)
Lemma process_input_file_run (W : World) (a : Args.t) (cs : option string)
    (ins : bool) (f : handle) (name : string) (tr : trace) :
  process_input_file W a cs ins f name tr
  = match from_csv W (tr ++ opening f) f name (csv_options a) with
    | Ret t =>
        output_table W a cs ins name t
          ((tr ++ opening f) ++ [EvFromCsv f name (Ret t); EvClose f])
    | Raise e => (Raise e, (tr ++ opening f) ++ [EvFromCsv f name (Raise e)])
    end.
Proof.
  unfold process_input_file, bind, open_on_first_use, perform, emit.
  destruct (from_csv W (tr ++ opening f) f name (csv_options a)) as [t|e];
    [|reflexivity].
  now rewrite <- (app_assoc (tr ++ opening f)).
Qed.

(** Sequencing for [yields]. *)
Section Yields.

Context {QR QE : trace -> Prop} {QS : Sequential QR QE}.

Lemma yields_ret {A} (x : A) : yields QR QE (ret x).
Proof. intros tr. exists []. simpl. rewrite app_nil_r. split; [reflexivity|apply seq_nil]. Qed.

Lemma yields_emit (e : event) : QR [e] -> yields QR QE (emit e).
Proof. intros H tr. exists [e]. now split. Qed.

Lemma yields_perform {A} (ask : trace -> outcome A) (ev : outcome A -> event) :
  (forall x, QR [ev (Ret x)]) -> (forall e, QE [ev (Raise e)]) ->
  yields QR QE (perform ask ev).
Proof.
  intros H1 H2 tr. exists [ev (ask tr)]. split; [reflexivity|].
  unfold perform. simpl. destruct (ask tr); auto.
Qed.

Lemma yields_bind {A B} (m : M A) (k : A -> M B) :
  yields QR QE m -> (forall x, yields QR QE (k x)) -> yields QR QE (bind m k).
Proof.
  intros Hm Hk tr. unfold bind.
  destruct (Hm tr) as [d1 [E1 H1]].
  destruct (m tr) as [[x|e] tr1]; simpl in E1, H1; subst tr1.
  - destruct (Hk x (tr ++ d1)) as [d2 [E2 H2]].
    exists (d1 ++ d2). rewrite E2, app_assoc. split; [reflexivity|].
    destruct (fst (k x (tr ++ d1))); [now apply seq_ret|now apply seq_raise].
  - exists d1. now split.
Qed.

Lemma yields_when (b : bool) (m : M unit) : yields QR QE m -> yields QR QE (when b m).
Proof. intros H. destruct b; simpl; [exact H|apply yields_ret]. Qed.

Lemma yields_for_each {A} (xs : list A) (body : A -> M unit) :
  (forall x, yields QR QE (body x)) -> yields QR QE (for_each xs body).
Proof.
  intros H. induction xs as [|x xs IH]; simpl.
  - apply yields_ret.
  - apply yields_bind; [apply H|intros _; exact IH].
Qed.

(** Events that satisfy [QR] whatever the outcome. *)
Lemma emits_yields {A} (m : M A) :
  (forall d, QR d -> QE d) -> emits QR m -> yields QR QE m.
Proof.
  intros H Hm tr. destruct (Hm tr) as [d [E Hd]]. exists d. split; [exact E|].
  destruct (fst (m tr)); auto.
Qed.

End Yields.

(** One step of a syntax-directed derivation of [yields]. *)
Ltac yields_step :=
  lazymatch goal with
  | |- yields _ _ (bind _ _) => apply yields_bind; [|intros ?]
  | |- yields _ _ (ret _) => apply yields_ret
  | |- yields _ _ (emit _) => apply yields_emit
  | |- yields _ _ (perform _ _) => apply yields_perform; intros ?
  | |- yields _ _ (when _ _) => apply yields_when
  | |- yields _ _ (for_each _ _) => apply yields_for_each; intros ?
  | |- yields _ _ (match ?x with _ => _ end) => destruct x
  | |- yields _ _ (let _ := _ in _) => cbv zeta
  end.

Lemma last_cons {A} (x d : A) (l : list A) : last (x :: l) d = last l x.
Proof.
  revert x d. induction l as [|y l IH]; intros x d; [reflexivity|].
  change (last (x :: y :: l) d) with (last (y :: l) d).
  now rewrite !IH.
Qed.

Lemma last_append {A} (l1 l2 : list A) (d : A) :
  last (l1 ++ l2) d = last l2 (last l1 d).
Proof.
  revert d. induction l1 as [|x l1 IH]; intros d; [reflexivity|].
  change ((x :: l1) ++ l2) with (x :: (l1 ++ l2)).
  now rewrite !last_cons, IH.
Qed.

Lemma open_levels_app (n : nat) (d1 d2 : trace) :
  open_levels n (d1 ++ d2)
  = open_levels n d1 ++ open_levels (last (open_levels n d1) n) d2.
Proof.
  revert n. induction d1 as [|e d1 IH]; intros n; [reflexivity|].
  cbn [app open_levels]. rewrite IH. cbn [app]. f_equal. f_equal.
  now rewrite last_cons.
Qed.

Lemma balanced_bounded (d : trace) : balanced d -> bounded d.
Proof. now intros [H _]. Qed.

Lemma balanced_app (d1 d2 : trace) : balanced d1 -> balanced d2 -> balanced (d1 ++ d2).
Proof.
  intros [B1 L1] [B2 L2]. unfold balanced, bounded in *.
  rewrite open_levels_app, L1. split.
  - apply Forall_app. now split.
  - rewrite last_append, L1. exact L2.
Qed.

Lemma bounded_app (d1 d2 : trace) : balanced d1 -> bounded d2 -> bounded (d1 ++ d2).
Proof.
  intros [B1 L1] B2. unfold bounded in *.
  rewrite open_levels_app, L1. apply Forall_app. now split.
Qed.

#[export] Instance balanced_sequential : Sequential balanced bounded.
Proof.
  split.
  - split; [constructor|reflexivity].
  - apply balanced_app.
  - apply bounded_app.
Qed.

Lemma balanced_quiet (d : trace) : Forall no_handle_event d -> balanced d.
Proof.
  induction 1 as [|e d [Ho Hc] _ IH].
  - split; [constructor|reflexivity].
  - apply (balanced_app [e] d); [|exact IH].
    unfold balanced, bounded. simpl. rewrite Ho, Hc. split; [repeat constructor|reflexivity].
Qed.

Lemma read_after_open_app (d1 d2 : trace) :
  read_after_open d1 = true ->
  read_after_open d2 = true ->
  read_after_open (d1 ++ d2) = true.
Proof.
  intros H1 H2. induction d1 as [|e d1 IH]; [exact H2|].
  assert (Hd1 : read_after_open d1 = true).
  { destruct e; simpl in H1; trivial. now apply andb_true_iff in H1. }
  specialize (IH Hd1).
  destruct e; simpl; trivial.
  simpl in H1. apply andb_true_iff in H1. destruct H1 as [H1 _].
  destruct d1 as [|[] d1]; try discriminate H1.
  apply andb_true_iff. split; [exact H1|exact IH].
Qed.

#[export] Instance read_after_open_local :
  Local (fun d => read_after_open d = true).
Proof. split; [reflexivity|apply read_after_open_app]. Qed.

Lemma read_after_open_quiet (d : trace) :
  Forall (fun e => is_open e = false) d -> read_after_open d = true.
Proof.
  induction 1 as [|e d He _ IH]; [reflexivity|].
  destruct e; simpl; trivial. discriminate He.
Qed.

(** What the checker means. *)
Lemma read_after_open_spec (tr : trace) :
  read_after_open tr = true ->
  forall d1 p d2,
    tr = d1 ++ EvOpen p :: d2 ->
    exists n r d3, d2 = EvFromCsv (File p) n r :: d3.
Proof.
  intros H d1. revert tr H.
  induction d1 as [|e d1 IH]; intros tr H p d2 E; subst tr.
  - cbn [app read_after_open] in H. apply andb_true_iff in H. destruct H as [H _].
    destruct d2 as [|[] d2]; try discriminate H.
    apply handle_eqb_eq in H. subst. eauto.
  - assert (H' : read_after_open (d1 ++ EvOpen p :: d2) = true).
    { destruct e; simpl in H; trivial. now apply andb_true_iff in H. }
    exact (IH _ H' p d2 eq_refl).
Qed.

Section Handles.

Variable W : World.
Variable a : Args.t.

Lemma process_input_file_handles (cs : option string) (ins : bool)
    (f : handle) (name : string) (tr : trace) :
  exists d,
    snd (process_input_file W a cs ins f name tr) = tr ++ d
    /\ closed_after_inference d = true
    /\ read_after_open d = true
    /\ match fst (process_input_file W a cs ins f name tr) with
       | Ret _ => balanced d
       | Raise _ => bounded d
       end.
Proof.
  rewrite process_input_file_run.
  destruct (from_csv W (tr ++ opening f) f name (csv_options a)) as [t|e].
  - set (head := opening f ++ [EvFromCsv f name (Ret t); EvClose f]).
    replace ((tr ++ opening f) ++ [EvFromCsv f name (Ret t); EvClose f])
      with (tr ++ head) by (subst head; now rewrite app_assoc).
    destruct (output_table_only
                (fun e => is_inference e = false /\ is_open e = false
                          /\ no_handle_event e)
                W a cs ins name t)
      with (tr := tr ++ head)
      as [d [E Hd]]; try (intros; repeat split; reflexivity).
    exists (head ++ d). rewrite E, app_assoc. split; [reflexivity|].
    assert (Hq : closed_after_inference d = true /\ read_after_open d = true
                 /\ balanced d).
    { repeat split.
      - apply closed_after_inference_quiet. eapply Forall_impl; [|exact Hd].
        now intros e [H _].
      - apply read_after_open_quiet. eapply Forall_impl; [|exact Hd].
        now intros e [_ [H _]].
      - apply balanced_quiet. eapply Forall_impl; [|exact Hd].
        now intros e [_ [_ H]].
      - apply balanced_quiet. eapply Forall_impl; [|exact Hd].
        now intros e [_ [_ H]]. }
    destruct Hq as [Hc [Hr Hb]].
    assert (Hhead : closed_after_inference head = true
                    /\ read_after_open head = true
                    /\ balanced head).
    { subst head. destruct f as [|p]; simpl; rewrite ?String.eqb_refl;
        repeat split; repeat constructor. }
    destruct Hhead as [Hc' [Hr' Hb']].
    split; [now apply closed_after_inference_app|].
    split; [now apply read_after_open_app|].
    destruct (fst (output_table W a cs ins name t _));
      [now apply balanced_app|apply bounded_app; [exact Hb'|now apply balanced_bounded]].
  - exists (opening f ++ [EvFromCsv f name (Raise e)]). cbn [fst snd].
    split; [now rewrite app_assoc|].
    destruct f as [|p]; simpl; rewrite ?String.eqb_refl;
      repeat split; repeat constructor.
Qed.

Lemma process_input_files_handles (cs : option string) (ins : bool)
    (fs : list handle) (names : list string) (tr : trace) :
  exists d,
    snd (process_input_files W a cs ins fs names tr) = tr ++ d
    /\ closed_after_inference d = true
    /\ read_after_open d = true
    /\ match fst (process_input_files W a cs ins fs names tr) with
       | Ret _ => balanced d
       | Raise _ => bounded d
       end.
Proof.
  revert names tr. induction fs as [|f fs IH]; intros names tr; simpl.
  - exists []. rewrite app_nil_r. repeat split. constructor.
  - destruct (resolve_table_name names f) as [name names'].
    destruct (process_input_file_handles cs ins f name tr) as [d1 [E1 [C1 [R1 B1]]]].
    unfold bind.
    destruct (process_input_file W a cs ins f name tr) as [[[]|e] tr1];
      simpl in E1, B1; subst tr1.
    + destruct (IH names' (tr ++ d1)) as [d2 [E2 [C2 [R2 B2]]]].
      exists (d1 ++ d2). rewrite E2, app_assoc. split; [reflexivity|].
      split; [now apply closed_after_inference_app|].
      split; [now apply read_after_open_app|].
      destruct (fst (process_input_files W a cs ins fs names' (tr ++ d1)));
        [now apply balanced_app|now apply bounded_app].
    + exists d1. now repeat split.
Qed.

(** The phases around the loop touch no input file. *)
Lemma establish_connection_quiet (cs : option string) :
  emits (Forall (fun e => is_inference e = false /\ is_open e = false
                          /\ no_handle_event e))
        (establish_connection W cs).
Proof. apply establish_connection_only; intros; repeat split; reflexivity. Qed.

Lemma finish_quiet (cs query : option string) :
  emits (Forall (fun e => is_inference e = false /\ is_open e = false
                          /\ no_handle_event e))
        (finish W cs query).
Proof. apply finish_only; intros; repeat split; reflexivity. Qed.

Lemma quiet_handles (d : trace) :
  Forall (fun e => is_inference e = false /\ is_open e = false
                   /\ no_handle_event e) d ->
  closed_after_inference d = true /\ read_after_open d = true /\ balanced d.
Proof.
  intros Hd. repeat split.
  - apply closed_after_inference_quiet. eapply Forall_impl; [|exact Hd].
    now intros e [H _].
  - apply read_after_open_quiet. eapply Forall_impl; [|exact Hd].
    now intros e [_ [H _]].
  - apply balanced_quiet. eapply Forall_impl; [|exact Hd].
    now intros e [_ [_ H]].
  - apply balanced_quiet. eapply Forall_impl; [|exact Hd].
    now intros e [_ [_ H]].
Qed.

Lemma after_checks_handles (tr : trace) :
  exists d,
    snd (after_checks W a tr) = tr ++ d
    /\ closed_after_inference d = true
    /\ read_after_open d = true
    /\ bounded d.
Proof.
  unfold after_checks.
  destruct (establish_connection_quiet (effective_connection_string a) tr)
    as [d1 [E1 Hd1]].
  destruct (quiet_handles d1 Hd1) as [C1 [R1 B1]].
  unfold bind at 1.
  destruct (establish_connection W _ tr) as [[[]|e] tr1]; simpl in E1; subst tr1.
  2:{ exists d1. cbn [snd]. repeat split; trivial. now apply balanced_bounded. }
  destruct (process_input_files_handles (effective_connection_string a)
              (effective_do_insert a) (map handle_of_path (Args.input_paths a))
              (split_table_names a) (tr ++ d1)) as [d2 [E2 [C2 [R2 B2]]]].
  unfold bind.
  destruct (process_input_files W a _ _ _ _ (tr ++ d1)) as [[[]|e] tr2];
    simpl in E2, B2; subst tr2.
  - destruct (finish_quiet (effective_connection_string a) (Args.query a)
                ((tr ++ d1) ++ d2)) as [d3 [E3 Hd3]].
    destruct (quiet_handles d3 Hd3) as [C3 [R3 B3]].
    exists ((d1 ++ d2) ++ d3). rewrite E3, !app_assoc. split; [reflexivity|].
    split; [now repeat apply closed_after_inference_app|].
    split; [now repeat apply read_after_open_app|].
    apply balanced_bounded. now repeat apply balanced_app.
  - exists (d1 ++ d2). cbn [snd]. rewrite app_assoc. split; [reflexivity|].
    split; [now apply closed_after_inference_app|].
    split; [now apply read_after_open_app|].
    now apply bounded_app.
Qed.

End Handles.

(** C1: at most one input file is open at any point of a run; a file is
    opened only when its processing begins, directly before its inference
    step, and is closed directly after that step has returned, before the
    next source is opened. *)
Theorem one_input_file_open_at_a_time (W : World) (a : Args.t) :
  peak_open (snd (main W a [])) <= 1
  /\ (forall d1 p d2,
         snd (main W a []) = d1 ++ EvOpen p :: d2 ->
         exists n r d3, d2 = EvFromCsv (File p) n r :: d3)
  /\ (forall d1 f n t d2,
         snd (main W a []) = d1 ++ EvFromCsv f n (Ret t) :: d2 ->
         exists d3, d2 = EvClose f :: d3).
Proof.
  assert (H : closed_after_inference (snd (main W a [])) = true
              /\ read_after_open (snd (main W a [])) = true
              /\ bounded (snd (main W a []))).
  { rewrite main_run. destruct (option_error a _ _).
    - repeat split. constructor.
    - destruct (after_checks_handles W a []) as [d [E H]]. now rewrite E. }
  destruct H as [Hc [Hr Hb]]. split; [|split].
  - unfold peak_open. apply list_max_le. exact Hb.
  - now apply read_after_open_spec.
  - now apply closed_after_inference_spec.
Qed.

(** [csvsql a.csv b.csv]: the second file is opened once the first one is
    closed. *)
Example two_files_run :
  peak_open (snd (main quiet_world two_files_args [])) = 1
  /\ filter (fun e => is_open e || is_file_close e)
            (snd (main quiet_world two_files_args []))
     = [EvOpen "a.csv"; EvClose (File "a.csv");
        EvOpen "b.csv"; EvClose (File "b.csv")].
Proof. split; reflexivity. Qed.

(** ** The transaction *)

Section Transaction.

Variable W : World.

(** What [finish] does in live mode: the queries, then the commit. *)
Lemma finish_run (cs query : option string) (tr : trace) :
  truthy cs = true ->
  exists dq,
    Forall outside_commit dq
    /\ (finish W cs query tr = (Ret tt, tr ++ dq ++ [EvCommit (Ret tt); EvConnClose])
        \/ (exists e, finish W cs query tr = (Raise e, tr ++ dq))
        \/ (exists e, finish W cs query tr = (Raise e, tr ++ dq ++ [EvCommit (Raise e)]))).
Proof.
  intros Hcs. unfold finish. rewrite Hcs. cbn [when].
  set (queries := when (truthy query)
                       match query with Some q => run_queries W q | None => ret tt end).
  assert (Hq : emits (Forall outside_commit) queries).
  { subst queries. apply emits_when.
    destruct query; [now apply run_queries_only|apply emits_ret]. }
  destruct (Hq tr) as [dq [E Hdq]]. exists dq. split; [exact Hdq|].
  unfold bind, perform, emit.
  destruct (queries tr) as [[[]|e] tr1]; simpl in E; subst tr1.
  - destruct (transaction_commit W (tr ++ dq)) as [[]|e].
    + left. now rewrite <- !app_assoc.
    + right. right. exists e. now rewrite <- app_assoc.
  - right. left. now exists e.
Qed.

#[export] Instance failure_sequential : Sequential all_succeeded failed_at_most_last.
Proof.
  split.
  - constructor.
  - intros d1 d2 H1 H2. apply Forall_app. now split.
  - intros d1 d2 H1 [H2|[d' [e [-> [H2 He]]]]].
    + left. apply Forall_app. now split.
    + right. exists (d1 ++ d'), e. rewrite app_assoc.
      repeat split; trivial. apply Forall_app. now split.
Qed.

(** A step that fails ends the computation: every piece of [main] stops
    at its first failed call. *)
Lemma establish_connection_stops (cs : option string) :
  yields all_succeeded failed_at_most_last (establish_connection W cs).
Proof.
  unfold establish_connection. apply yields_when.
  destruct cs as [target|]; [|apply yields_ret].
  apply yields_bind; [|intros _; repeat yields_step].
  - intros tr. exists [EvGetConnection target (get_connection W tr target)].
    unfold try_except, perform, raise.
    destruct (get_connection W tr target) as [x|e] eqn:E; cbn [fst snd].
    + split; [reflexivity|]. repeat constructor.
    + split; [destruct e; reflexivity|].
      assert (H : failed_at_most_last [EvGetConnection target (Raise e)]).
      { right. exists [], (EvGetConnection target (Raise e)).
        repeat split. constructor. }
      destruct e; exact H.
  - repeat constructor.
  - right. eexists [], _. repeat split. constructor.
  - repeat constructor.
  - right. eexists [], _. repeat split. constructor.
Qed.

Lemma process_input_files_stops (a : Args.t) (cs : option string) (ins : bool)
    (fs : list handle) (names : list string) :
  yields all_succeeded failed_at_most_last (process_input_files W a cs ins fs names).
Proof.
  revert names. induction fs as [|f fs IH]; intros names; simpl.
  - apply yields_ret.
  - destruct (resolve_table_name names f) as [name names'].
    apply yields_bind; [|intros _; apply IH].
    unfold process_input_file. apply yields_bind.
    { intros tr. exists (opening f). split; [reflexivity|].
      destruct f; repeat constructor. }
    intros _. unfold output_table.
    repeat yields_step;
      solve [ repeat constructor
            | right; eexists [], _; repeat split; constructor ].
Qed.

Lemma finish_stops (cs query : option string) :
  yields all_succeeded failed_at_most_last (finish W cs query).
Proof.
  unfold finish. apply yields_when. apply yields_bind.
  - apply yields_when. destruct query as [q|]; [|apply yields_ret].
    unfold run_queries. cbv zeta. apply yields_bind.
    + generalize (@None ResultProxy).
      induction (split ";" q) as [|piece pieces IH]; intros rows; simpl.
      * apply yields_ret.
      * destruct (nonempty piece); [|apply IH].
        apply yields_bind; [|intros r; apply IH].
        apply yields_perform; intros.
        -- repeat constructor.
        -- right. eexists [], _. repeat split. constructor.
    + intros rows. unfold write_result.
      repeat yields_step; repeat constructor.
  - intros _. repeat yields_step;
      solve [ repeat constructor
            | right; eexists [], _; repeat split; constructor ].
Qed.

Lemma after_checks_stops (a : Args.t) :
  yields all_succeeded failed_at_most_last (after_checks W a).
Proof.
  unfold after_checks.
  apply yields_bind; [apply establish_connection_stops|intros _].
  apply yields_bind; [apply process_input_files_stops|intros _].
  apply finish_stops.
Qed.

(** A failed step can only be the last event of such a trace. *)
Lemma failed_step_is_last (d : trace) :
  failed_at_most_last d ->
  forall d1 e d2, d = d1 ++ e :: d2 -> is_failure e = true -> d2 = [].
Proof.
  intros H d1 e d2 E He.
  assert (Hin : forall l, all_succeeded l -> In e l -> False).
  { intros l Hl Hi. unfold all_succeeded in Hl. rewrite Forall_forall in Hl.
    specialize (Hl e Hi). congruence. }
  destruct H as [H|[d' [e' [E' [H _]]]]].
  - exfalso. apply (Hin d H). subst d. apply in_or_app. right. now left.
  - rewrite E in E'. clear E.
    destruct d2 as [|x d2 _] using rev_ind; [reflexivity|]. exfalso.
    change (d1 ++ e :: d2 ++ [x]) with (d1 ++ (e :: d2) ++ [x]) in E'.
    rewrite app_assoc in E'. apply app_inj_tail in E'. destruct E' as [<- _].
    apply (Hin _ H). apply in_or_app. right. now left.
Qed.

(** C5: in live mode a run that succeeds commits exactly once, as its last
    action before closing the connection; a run that fails has committed
    nothing and rolled nothing back: either no commit was attempted, or the
    commit itself is what failed.  A step that fails is the last thing the
    run does, and makes the run fail: nothing, the commit least of all, is
    reached after it. *)
Theorem commit_once_at_the_end (a : Args.t) (r : outcome unit) (tr : trace) :
  truthy (effective_connection_string a) = true ->
  main W a [] = (r, tr) ->
  match r with
  | Ret _ =>
      exists pre,
        tr = pre ++ [EvCommit (Ret tt); EvConnClose]
        /\ Forall (fun e => is_transaction_end e = false) pre
        /\ Forall (fun e => is_failure e = false) tr
  | Raise e =>
      Forall (fun e => is_transaction_end e = false) tr
      \/ exists pre,
           tr = pre ++ [EvCommit (Raise e)]
           /\ Forall (fun e => is_transaction_end e = false) pre
  end
  /\ forall d1 e d2,
       tr = d1 ++ e :: d2 -> is_failure e = true ->
       d2 = [] /\ exists x, r = Raise x.
Proof.
  intros Hcs Hrun. split.
  - revert Hrun. rewrite main_run.
    destruct (option_error a _ _) as [message|].
    { intros H. inversion H; subst. left. constructor. }
    intros Hrun.
    assert (Hclean : match r with
                     | Ret _ => Forall (fun e => is_failure e = false) tr
                     | Raise _ => True
                     end).
    { destruct (after_checks_stops a []) as [d [E Hd]].
      rewrite Hrun in E, Hd. cbn [fst snd app] in E, Hd. subst d.
      destruct r; [exact Hd|exact I]. }
    revert Hrun. unfold after_checks. intros H.
    apply bind_inv in H. destruct H as [[[] [tr1 [H1 H]]]|[e [H1 ->]]].
    2:{ left.
        destruct (establish_connection_only outside_commit W (effective_connection_string a))
          with (tr := @nil event) as [d [E Hd]]; try reflexivity.
        rewrite H1 in E. simpl in E. now subst tr. }
    destruct (establish_connection_only outside_commit W (effective_connection_string a))
      with (tr := @nil event) as [d1 [E1 Hd1]]; try reflexivity.
    rewrite H1 in E1. simpl in E1. subst tr1.
    apply bind_inv in H. destruct H as [[[] [tr2 [H2 H]]]|[e [H2 ->]]].
    2:{ left.
        destruct (process_input_files_only outside_commit W a (effective_connection_string a)
                    (effective_do_insert a) (map handle_of_path (Args.input_paths a))
                    (split_table_names a))
          with (tr := d1) as [d [E Hd]]; try reflexivity.
        rewrite H2 in E. simpl in E. subst tr. apply Forall_app; now split. }
    destruct (process_input_files_only outside_commit W a (effective_connection_string a)
                (effective_do_insert a) (map handle_of_path (Args.input_paths a))
                (split_table_names a))
      with (tr := d1) as [d2 [E2 Hd2]]; try reflexivity.
    rewrite H2 in E2. simpl in E2. subst tr2.
    destruct (finish_run (effective_connection_string a) (Args.query a)
                (d1 ++ d2) Hcs) as [dq [Hdq [F|[[e F]|[e F]]]]];
      rewrite F in H; inversion H; subst.
    + exists ((d1 ++ d2) ++ dq). rewrite <- !app_assoc. split; [reflexivity|].
      split; [repeat (apply Forall_app; split); trivial|].
      rewrite <- !app_assoc in Hclean. exact Hclean.
    + left. repeat (apply Forall_app; split); trivial.
    + right. exists ((d1 ++ d2) ++ dq). rewrite <- !app_assoc.
      split; [reflexivity|]. repeat (apply Forall_app; split); trivial.
  - intros d1 e d2 E He.
    assert (H : match r with
                | Ret _ => all_succeeded tr
                | Raise _ => failed_at_most_last tr
                end).
    { revert Hrun. rewrite main_run.
      destruct (option_error a _ _) as [message|].
      - intros H. inversion H; subst. left. constructor.
      - intros Hrun. destruct (after_checks_stops a []) as [d [Ed Hd]].
        rewrite Hrun in Ed, Hd. cbn [fst snd app] in Ed, Hd. now subst d. }
    destruct r as [[]|x].
    + exfalso. unfold all_succeeded in H. rewrite Forall_forall in H.
      assert (Hin : In e tr) by (subst tr; apply in_or_app; right; now left).
      specialize (H e Hin). congruence.
    + split; [|now exists x]. exact (failed_step_is_last tr H d1 e d2 E He).
Qed.

End Transaction.

Lemma commit_once_at_the_end_witness :
  (exists pre,
      snd (main quiet_world live_args []) = pre ++ [EvCommit (Ret tt); EvConnClose]
      /\ Forall (fun e => is_transaction_end e = false) pre
      /\ Forall (fun e => is_failure e = false) (snd (main quiet_world live_args [])))
  /\ (Forall (fun e => is_transaction_end e = false)
             (snd (main failing_insert_world live_args []))
      \/ exists pre,
           snd (main failing_insert_world live_args [])
           = pre ++ [EvCommit (Raise integrity_error)]
           /\ Forall (fun e => is_transaction_end e = false) pre).
Proof.
  split.
  - apply (commit_once_at_the_end quiet_world live_args (Ret tt)
             (snd (main quiet_world live_args []))); reflexivity.
  - apply (commit_once_at_the_end failing_insert_world live_args
             (Raise integrity_error)
             (snd (main failing_insert_world live_args []))); reflexivity.
Defined.

(** ** The query runner *)

Lemma for_each_emit {A} (xs : list A) (ev : A -> event) (tr : trace) :
  for_each xs (fun x => emit (ev x)) tr = (Ret tt, tr ++ map ev xs).
Proof.
  revert tr. induction xs as [|x xs IH]; intros tr; simpl.
  - unfold ret. now rewrite app_nil_r.
  - unfold bind, emit. rewrite IH. now rewrite <- app_assoc.
Qed.

Lemma write_result_run (rows : option ResultProxy) (tr : trace) :
  write_result rows tr = (Ret tt, tr ++ rendering rows).
Proof.
  unfold write_result, rendering.
  destruct rows as [r|]; [destruct (metadata_keys r) as [keys|]|];
    try (unfold ret; now rewrite app_nil_r).
  unfold bind.
  change (emit (EvWriteRow keys) tr) with (Ret tt, tr ++ [EvWriteRow keys]).
  cbv beta iota. rewrite for_each_emit. now rewrite <- app_assoc.
Qed.

Section Queries.

Variable W : World.

(** No statement fails. *)
Hypothesis execute_ok : forall tr q, exists r, execute_query W tr q = Ret r.

Lemma execute_queries_run (queries : list string) (rows : option ResultProxy)
    (tr : trace) :
  exists results,
    List.length results = List.length (filter nonempty queries)
    /\ execute_queries W queries rows tr
       = (Ret (last (map Some results) rows),
          tr ++ map (fun qr => EvExecute (fst qr) (Ret (snd qr)))
                    (combine (filter nonempty queries) results)).
Proof.
  revert rows tr. induction queries as [|q queries IH]; intros rows tr; simpl.
  - exists []. unfold ret. now rewrite app_nil_r.
  - destruct (nonempty q); [|apply IH].
    destruct (execute_ok tr q) as [r Hr].
    destruct (IH (Some r) (tr ++ [EvExecute q (Ret r)])) as [results [Hlen E]].
    exists (r :: results). split; [simpl; now rewrite Hlen|].
    unfold bind, perform. rewrite Hr, E.
    cbn [map combine fst snd]. rewrite last_cons, <- app_assoc. reflexivity.
Qed.

(** In live mode with a non-empty query, [finish] runs the queries, then
    commits and closes. *)
Lemma finish_live_query (cs : option string) (query : string) :
  truthy cs = true ->
  nonempty query = true ->
  finish W cs (Some query)
  = (run_queries W query ;; perform (transaction_commit W) EvCommit ;; emit EvConnClose).
Proof.
  intros Hcs Hq. unfold finish. rewrite Hcs.
  destruct query; [discriminate Hq|reflexivity].
Qed.

(** C8: the query string is split on [;]; the non-empty pieces are
    executed in order; only the result of the last one executed is written,
    as a header row followed by one row per record; when there is no
    result set nothing is written; and the step does not fail: in live
    mode the run goes on to the commit. *)
Theorem last_result_rendered (query : string) (tr : trace) :
  exists results,
    List.length results = List.length (filter nonempty (split ";" query))
    /\ run_queries W query tr
       = (Ret tt,
          tr ++ map (fun qr => EvExecute (fst qr) (Ret (snd qr)))
                    (combine (filter nonempty (split ";" query)) results)
             ++ rendering (last (map Some results) None))
    /\ forall cs,
         truthy cs = true ->
         nonempty query = true ->
         finish W cs (Some query) tr
         = (perform (transaction_commit W) EvCommit ;; emit EvConnClose)
             (tr ++ map (fun qr => EvExecute (fst qr) (Ret (snd qr)))
                        (combine (filter nonempty (split ";" query)) results)
                 ++ rendering (last (map Some results) None)).
Proof.
  destruct (execute_queries_run (split ";" query) None tr) as [results [Hlen E]].
  exists results. split; [exact Hlen|].
  assert (R : run_queries W query tr
              = (Ret tt,
                 tr ++ map (fun qr => EvExecute (fst qr) (Ret (snd qr)))
                           (combine (filter nonempty (split ";" query)) results)
                    ++ rendering (last (map Some results) None))).
  { unfold run_queries. cbv zeta. unfold bind.
    rewrite E, write_result_run. now rewrite <- app_assoc. }
  split; [exact R|].
  intros cs Hcs Hq. rewrite finish_live_query by assumption.
  unfold bind at 1. now rewrite R.
Qed.

End Queries.

Lemma last_result_rendered_witness :
  exists results,
    List.length results = 3
    /\ run_queries quiet_world "CREATE TABLE t (a int); ;SELECT 1;" []
       = (Ret tt,
          map (fun qr => EvExecute (fst qr) (Ret (snd qr)))
              (combine ["CREATE TABLE t (a int)"; " "; "SELECT 1"] results)
          ++ rendering (last (map Some results) None))
    /\ forall cs,
         truthy cs = true ->
         nonempty "CREATE TABLE t (a int); ;SELECT 1;" = true ->
         finish quiet_world cs (Some "CREATE TABLE t (a int); ;SELECT 1;") []
         = (perform (transaction_commit quiet_world) EvCommit ;; emit EvConnClose)
             (map (fun qr => EvExecute (fst qr) (Ret (snd qr)))
                  (combine ["CREATE TABLE t (a int)"; " "; "SELECT 1"] results)
              ++ rendering (last (map Some results) None)).
Proof.
  exact (last_result_rendered quiet_world
           (fun _ _ => ex_intro _ _ eq_refl)
           "CREATE TABLE t (a int); ;SELECT 1;" []).
Defined.

(** ** The loop over the input files *)

Lemma inferences_app (d1 d2 : trace) :
  inferences (d1 ++ d2) = inferences d1 ++ inferences d2.
Proof. apply flat_map_app. Qed.

Lemma output_app (d1 d2 : trace) : output (d1 ++ d2) = output d1 ++ output d2.
Proof. apply filter_app. Qed.

Lemma no_from_csv_inferences (d : trace) :
  Forall (fun e => is_from_csv e = false) d -> inferences d = [] /\ sources d = [].
Proof.
  induction 1 as [|e d He _ [IH1 IH2]]; [now split|].
  destruct e; try discriminate He; now split.
Qed.

Lemma no_output (d : trace) :
  Forall (fun e => is_output e = false) d -> output d = [].
Proof.
  induction 1 as [|e d He _ IH]; [reflexivity|].
  unfold output in *. simpl. now rewrite He.
Qed.

Lemma opening_silent (f : handle) :
  inferences (opening f) = [] /\ sources (opening f) = []
  /\ output (opening f) = [] /\ closes (opening f) = [].
Proof. destruct f; repeat split. Qed.

Lemma resolved_names_fallback (fs : list handle) :
  resolved_names fs [] = map fallback_name fs.
Proof. induction fs as [|f fs IH]; simpl; [reflexivity|now rewrite IH]. Qed.

(** The explicit names come first, in order; the fallback names follow. *)
Lemma resolved_names_spec (fs : list handle) (names : list string) :
  List.length names <= List.length fs ->
  resolved_names fs names
  = names ++ map fallback_name (skipn (List.length names) fs).
Proof.
  revert names. induction fs as [|f fs IH]; intros names Hlen.
  - destruct names; [reflexivity|simpl in Hlen; lia].
  - destruct names as [|n names].
    + apply resolved_names_fallback.
    + simpl. rewrite IH by (simpl in Hlen; lia). reflexivity.
Qed.

Section Loop.

Variable W : World.
Variable a : Args.t.
Variable cs : option string.
Variable ins : bool.

(** What [output_table] adds holds no inference step. *)
Lemma output_table_run (name : string) (t : option Table) (tr : trace) :
  exists d,
    snd (output_table W a cs ins name t tr) = tr ++ d
    /\ inferences d = [] /\ sources d = [].
Proof.
  destruct (output_table_only (fun e => is_from_csv e = false) W a cs ins name t)
    with (tr := tr) as [d [E Hd]]; try reflexivity.
  exists d. split; [exact E|]. now apply no_from_csv_inferences.
Qed.

(** A loop that completes has run the inference step once per file, in
    order, under the resolved names. *)
Lemma process_input_files_completed (fs : list handle) (names : list string)
    (tr tr' : trace) :
  process_input_files W a cs ins fs names tr = (Ret tt, tr') ->
  exists d,
    tr' = tr ++ d
    /\ map (fun i => fst (fst i)) (inferences d) = fs
    /\ map (fun i => snd (fst i)) (inferences d) = resolved_names fs names.
Proof.
  revert names tr. induction fs as [|f fs IH]; intros names tr H; simpl in H.
  - inversion H; subst. exists []. now rewrite app_nil_r.
  - cbn [resolved_names].
    destruct (resolve_table_name names f) as [name names'].
    apply bind_inv in H. destruct H as [[[] [tr1 [H1 H]]]|[e [_ H]]]; [|discriminate H].
    rewrite process_input_file_run in H1.
    destruct (from_csv W (tr ++ opening f) f name (csv_options a)) as [t|e];
      [|discriminate H1].
    destruct (output_table_run name t
                ((tr ++ opening f) ++ [EvFromCsv f name (Ret t); EvClose f]))
      as [d1 [E1 [I1 S1]]].
    rewrite H1 in E1. simpl in E1. subst tr1.
    destruct (IH _ _ H) as [d2 [E2 [F2 N2]]].
    exists (((opening f ++ [EvFromCsv f name (Ret t); EvClose f]) ++ d1) ++ d2).
    split; [now rewrite E2, !app_assoc|].
    rewrite !inferences_app, I1, (proj1 (opening_silent f)). simpl.
    now rewrite F2, N2.
Qed.

(** Without a connection target, what the loop writes is the statement
    lines of the inference steps that returned. *)
Lemma process_input_files_static (fs : list handle) (names : list string)
    (tr : trace) :
  truthy cs = false ->
  exists d,
    snd (process_input_files W a cs ins fs names tr) = tr ++ d
    /\ output d = flat_map (statement_line W a) (inferences d).
Proof.
  intros Hcs. revert names tr. induction fs as [|f fs IH]; intros names tr; simpl.
  - exists []. now rewrite app_nil_r.
  - destruct (resolve_table_name names f) as [name names'].
    unfold bind. rewrite process_input_file_run.
    destruct (from_csv W (tr ++ opening f) f name (csv_options a)) as [t|e].
    + assert (E : output_table W a cs ins name t
                    ((tr ++ opening f) ++ [EvFromCsv f name (Ret t); EvClose f])
                  = (Ret tt, ((tr ++ opening f) ++ [EvFromCsv f name (Ret t); EvClose f])
                             ++ statement_line W a (f, name, t))).
      { unfold output_table, statement_line.
        destruct t as [t|]; [destruct (table_bool (Some t))|];
          rewrite ?Hcs; unfold emit, ret; rewrite ?app_nil_r; reflexivity. }
      rewrite E.
      destruct (IH names' (((tr ++ opening f) ++ [EvFromCsv f name (Ret t); EvClose f])
                           ++ statement_line W a (f, name, t))) as [d [Ed Hd]].
      exists (((opening f ++ [EvFromCsv f name (Ret t); EvClose f])
               ++ statement_line W a (f, name, t)) ++ d).
      split; [now rewrite Ed, !app_assoc|].
      rewrite !output_app, !inferences_app, !flat_map_app, Hd.
      destruct (opening_silent f) as [-> [_ [-> _]]]. cbn [app flat_map].
      f_equal. destruct t as [[[|c cols] rows]|]; reflexivity.
    + exists (opening f ++ [EvFromCsv f name (Raise e)]).
      split; [now rewrite app_assoc|].
      rewrite output_app, inferences_app.
      destruct (opening_silent f) as [-> [_ [-> _]]]. reflexivity.
Qed.

End Loop.

Section Runs.

Variable W : World.
Variable a : Args.t.

(** A run that completes has inferred every input file once, in input
    order, under the resolved names. *)
Lemma main_completed (tr : trace) :
  main W a [] = (Ret tt, tr) ->
  map (fun i => fst (fst i)) (inferences tr) = map handle_of_path (Args.input_paths a)
  /\ map (fun i => snd (fst i)) (inferences tr)
     = resolved_names (map handle_of_path (Args.input_paths a)) (split_table_names a).
Proof.
  rewrite main_run. destruct (option_error a _ _); [discriminate|].
  unfold after_checks. intros H.
  apply bind_inv in H. destruct H as [[[] [tr1 [H1 H]]]|[e [_ H]]]; [|discriminate H].
  apply bind_inv in H. destruct H as [[[] [tr2 [H2 H]]]|[e [_ H]]]; [|discriminate H].
  destruct (establish_connection_only (fun e => is_from_csv e = false) W
              (effective_connection_string a)) with (tr := @nil event)
    as [d1 [E1 Hd1]]; try reflexivity.
  rewrite H1 in E1. simpl in E1. subst tr1.
  destruct (process_input_files_completed _ _ _ _ _ _ _ _ H2) as [d2 [E2 [F2 N2]]].
  subst tr2.
  destruct (finish_only (fun e => is_from_csv e = false) W
              (effective_connection_string a) (Args.query a))
    with (tr := d1 ++ d2) as [d3 [E3 Hd3]]; try reflexivity.
  rewrite H in E3. simpl in E3. subst tr.
  rewrite !inferences_app.
  destruct (no_from_csv_inferences _ Hd1) as [-> _].
  destruct (no_from_csv_inferences _ Hd3) as [-> _].
  rewrite app_nil_r. now split.
Qed.

(** C6: in a run that completes, when there are no more explicit names
    than sources, the sources get, in input order, the explicit names in
    their given order and then their fallback names: the file name without
    directory and extension, or [stdin] for standard input. *)
Theorem explicit_names_then_fallback (tr : trace) :
  List.length (split_table_names a) <= List.length (Args.input_paths a) ->
  main W a [] = (Ret tt, tr) ->
  map (fun i => fst (fst i)) (inferences tr) = map handle_of_path (Args.input_paths a)
  /\ map (fun i => snd (fst i)) (inferences tr)
     = split_table_names a
       ++ map fallback_name
              (skipn (List.length (split_table_names a))
                     (map handle_of_path (Args.input_paths a))).
Proof.
  intros Hlen H. destruct (main_completed tr H) as [Hf Hn].
  split; [exact Hf|]. rewrite Hn.
  apply resolved_names_spec. now rewrite length_map.
Qed.

(** C9: without a database target and without a query, the output is made
    of the rendered statement lines of the inferred sources whose table is
    not empty, one each, in order, and nothing else; when the run
    completes, the inferred sources are the input sources, in input
    order. *)
Theorem static_output_one_statement_per_table (r : outcome unit) (tr : trace) :
  truthy (Args.connection_string a) = false ->
  truthy (Args.query a) = false ->
  main W a [] = (r, tr) ->
  output tr = flat_map (statement_line W a) (inferences tr)
  /\ (r = Ret tt ->
      map (fun i => fst (fst i)) (inferences tr)
      = map handle_of_path (Args.input_paths a)).
Proof.
  intros Hcs Hq H. split; [|intros ->; now apply main_completed].
  revert H. rewrite main_run.
  destruct (option_error a _ _).
  { intros H. inversion H; subst. reflexivity. }
  assert (E : effective_connection_string a = Args.connection_string a).
  { unfold effective_connection_string. now rewrite Hq. }
  unfold after_checks, establish_connection, finish. rewrite E, Hcs.
  cbn [when app]. unfold bind at 1, ret at 1.
  destruct (process_input_files_static W a (Args.connection_string a)
              (effective_do_insert a) (map handle_of_path (Args.input_paths a))
              (split_table_names a) [] Hcs) as [d [Ed Hd]].
  unfold bind.
  destruct (process_input_files W a _ _ _ _ []) as [[[]|e] tr1];
    simpl in Ed; subst tr1; unfold ret; intros H; inversion H; subst;
    exact Hd.
Qed.

End Runs.

Lemma explicit_names_then_fallback_witness :
  map (fun i => fst (fst i)) (inferences (snd (main quiet_world named_args [])))
  = [File "a.csv"; File "dir/b.csv"; Stdin]
  /\ map (fun i => snd (fst i)) (inferences (snd (main quiet_world named_args [])))
     = ["x"; "b"; "stdin"].
Proof.
  apply (explicit_names_then_fallback quiet_world named_args
           (snd (main quiet_world named_args []))).
  - vm_compute. lia.
  - reflexivity.
Defined.

Lemma static_output_one_statement_per_table_witness :
  output (snd (main quiet_world empty_then_good_args []))
  = [EvWrite ("CREATE TABLE good (...);" ++ nl)]
  /\ (Ret tt = Ret tt ->
      map (fun i => fst (fst i))
          (inferences (snd (main quiet_world empty_then_good_args [])))
      = [File "empty.csv"; File "good.csv"]).
Proof.
  apply (static_output_one_statement_per_table quiet_world empty_then_good_args
           (Ret tt) (snd (main quiet_world empty_then_good_args [])));
    reflexivity.
Defined.

(** ** Empty and failing inputs *)

(** C3 (amended): a source whose inference step returns an empty or absent
    table adds nothing but its opening, inference and closing events, and
    the loop goes on with the remaining sources and names; a source whose
    inference step raises ends the loop there, with that exception. *)
Theorem empty_source_skipped (W : World) (a : Args.t) (cs : option string)
    (ins : bool) (f : handle) (fs : list handle) (names : list string)
    (tr : trace) :
  let name := fst (resolve_table_name names f) in
  let names' := snd (resolve_table_name names f) in
  (forall t,
      from_csv W (tr ++ opening f) f name (csv_options a) = Ret t ->
      table_bool t = false ->
      process_input_files W a cs ins (f :: fs) names tr
      = process_input_files W a cs ins fs names'
          ((tr ++ opening f) ++ [EvFromCsv f name (Ret t); EvClose f]))
  /\ (forall e,
         from_csv W (tr ++ opening f) f name (csv_options a) = Raise e ->
         process_input_files W a cs ins (f :: fs) names tr
         = (Raise e, (tr ++ opening f) ++ [EvFromCsv f name (Raise e)])).
Proof.
  cbn zeta. cbn [process_input_files].
  destruct (resolve_table_name names f) as [name names']. cbn [fst snd].
  split.
  - intros t Ht Hb. unfold bind at 1.
    rewrite process_input_file_run, Ht. unfold output_table.
    destruct t as [t|]; [rewrite Hb|]; reflexivity.
  - intros e He. unfold bind at 1.
    now rewrite process_input_file_run, He.
Qed.

Lemma empty_source_skipped_witness :
  process_input_files quiet_world default_args None false
    [File "empty.csv"; File "good.csv"] [] []
  = process_input_files quiet_world default_args None false [File "good.csv"] []
      [EvOpen "empty.csv";
       EvFromCsv (File "empty.csv") "empty" (Ret (Some (sample_table [] [])));
       EvClose (File "empty.csv")]
  /\ process_input_files strict_world default_args None false
       [File "bad.csv"; File "good.csv"] [] []
     = (Raise decoding_error,
        [EvOpen "bad.csv"; EvFromCsv (File "bad.csv") "bad" (Raise decoding_error)]).
Proof.
  split.
  - apply (proj1 (empty_source_skipped quiet_world default_args None false
                    (File "empty.csv") [File "good.csv"] [] []));
      reflexivity.
  - apply (proj2 (empty_source_skipped strict_world default_args None false
                    (File "bad.csv") [File "good.csv"] [] []));
      reflexivity.
Defined.

(** C3 as stated fails: when the inference step raises on the first of
    two inputs, the run ends with that exception and the second input is
    never processed. *)
Lemma bad_input_aborts_counterexample :
  fst (main strict_world bad_then_good_args []) = Raise decoding_error
  /\ ~ In (File "good.csv") (sources (snd (main strict_world bad_then_good_args [])))
  /\ ~ processes_all_sources strict_world bad_then_good_args.
Proof.
  split; [reflexivity|]. split.
  - vm_compute. intros [H|[]]. discriminate H.
  - unfold processes_all_sources. vm_compute. discriminate.
Qed.

(** ** A query without a database target *)

Lemma creates_app (d1 d2 : trace) : creates (d1 ++ d2) = creates d1 ++ creates d2.
Proof. apply flat_map_app. Qed.

Lemma inserts_app (d1 d2 : trace) : inserts (d1 ++ d2) = inserts d1 ++ inserts d2.
Proof. apply flat_map_app. Qed.

Lemma executed_app (d1 d2 : trace) : executed (d1 ++ d2) = executed d1 ++ executed d2.
Proof. apply flat_map_app. Qed.

Lemma no_execute_executed (d : trace) :
  Forall (fun e => match e with EvExecute _ _ => False | _ => True end) d ->
  executed d = [].
Proof.
  induction 1 as [|e d He _ IH]; [reflexivity|].
  destruct e; try contradiction; exact IH.
Qed.

(** A connection set up without failure is the three calls, in order. *)
Lemma establish_connection_completed (W : World) (target : string) (tr tr' : trace) :
  nonempty target = true ->
  establish_connection W (Some target) tr = (Ret tt, tr') ->
  tr' = tr ++ connection_setup target.
Proof.
  intros Ht. unfold establish_connection.
  replace (truthy (Some target)) with true
    by (destruct target; [discriminate Ht|reflexivity]).
  cbn [when]. unfold bind, try_except, perform, raise, connection_setup.
  destruct (get_connection W tr target) as [[]|e].
  - destruct (engine_connect W _) as [[]|e]; [|discriminate].
    destruct (connection_begin W _) as [[]|e]; [|discriminate].
    intros H. inversion H. now rewrite <- !app_assoc.
  - destruct e; discriminate.
Qed.

(** Setting a connection up starts with the call that makes it. *)
Lemma establish_connection_first (W : World) (target : string) (tr : trace) :
  nonempty target = true ->
  exists r d,
    snd (establish_connection W (Some target) tr)
    = tr ++ EvGetConnection target r :: d.
Proof.
  intros Ht. unfold establish_connection.
  replace (truthy (Some target)) with true
    by (destruct target; [discriminate Ht|reflexivity]).
  cbn [when]. unfold bind, try_except, perform, raise.
  destruct (get_connection W tr target) as [[]|e].
  - exists (Ret tt).
    destruct (engine_connect W _) as [[]|e];
      [destruct (connection_begin W _) as [[]|e]|];
      eexists; cbn [snd]; rewrite <- ?app_assoc; reflexivity.
  - exists (Raise e), []. destruct e; reflexivity.
Qed.

(** What a live run with insertion does with an inferred table, when
    nothing fails. *)
Lemma output_table_live (W : World) (a : Args.t) (cs : option string)
    (f : handle) (name : string) (t : option Table) (tr tr' : trace) :
  truthy cs = true ->
  output_table W a cs true name t tr = (Ret tt, tr') ->
  exists d,
    tr' = tr ++ d
    /\ Forall (fun e => is_ingest_event e = true) d
    /\ inferences d = []
    /\ creates d = expected_create a (f, name, t)
    /\ inserts d = expected_insert a (f, name, t).
Proof.
  intros Hcs. unfold output_table, expected_create, expected_insert.
  destruct t as [t|].
  2:{ intros H. inversion H. exists []. rewrite app_nil_r.
      repeat split; constructor. }
  destruct (table_bool (Some t)).
  2:{ intros H. inversion H. exists []. rewrite app_nil_r.
      repeat split; constructor. }
  rewrite Hcs. cbv zeta. cbn [andb].
  unfold bind, when, perform, ret.
  destruct (Args.no_create a); cbn [negb].
  - destruct (Nat.ltb 0 (count_rows t)).
    + destruct (execute_insert W _ _ _) as [[]|e]; [|discriminate].
      intros H. inversion H. eexists. split; [reflexivity|].
      repeat split; repeat constructor.
    + intros H. inversion H. exists []. rewrite app_nil_r.
      repeat split; constructor.
  - destruct (sql_create W _ _) as [[]|e]; [|discriminate].
    destruct (Nat.ltb 0 (count_rows t)).
    + destruct (execute_insert W _ _ _) as [[]|e]; [|discriminate].
      intros H. inversion H. eexists. split; [now rewrite <- app_assoc|].
      repeat split; repeat constructor.
    + intros H. inversion H. eexists. split; [reflexivity|].
      repeat split; repeat constructor.
Qed.

(** The loop of a live run with insertion, when nothing fails: every
    source is inferred, and each inferred table is created and inserted
    as [expected_create] and [expected_insert] say. *)
Lemma process_input_files_live (W : World) (a : Args.t) (cs : option string)
    (fs : list handle) (names : list string) (tr tr' : trace) :
  truthy cs = true ->
  process_input_files W a cs true fs names tr = (Ret tt, tr') ->
  exists d,
    tr' = tr ++ d
    /\ Forall (fun e => is_ingest_event e = true) d
    /\ map (fun i => fst (fst i)) (inferences d) = fs
    /\ creates d = flat_map (expected_create a) (inferences d)
    /\ inserts d = flat_map (expected_insert a) (inferences d).
Proof.
  intros Hcs. revert names tr.
  induction fs as [|f fs IH]; intros names tr H; simpl in H.
  - inversion H. exists []. rewrite app_nil_r. repeat split; constructor.
  - destruct (resolve_table_name names f) as [name names'].
    apply bind_inv in H. destruct H as [[[] [tr1 [H1 H]]]|[e [_ H]]]; [|discriminate H].
    rewrite process_input_file_run in H1.
    destruct (from_csv W (tr ++ opening f) f name (csv_options a)) as [t|e];
      [|discriminate H1].
    destruct (output_table_live W a cs f name t _ _ Hcs H1)
      as [d1 [-> [G1 [I1 [C1 N1]]]]].
    destruct (IH _ _ H) as [d2 [-> [G2 [I2 [C2 N2]]]]].
    exists (((opening f ++ [EvFromCsv f name (Ret t); EvClose f]) ++ d1) ++ d2).
    split; [now rewrite !app_assoc|].
    assert (Go : Forall (fun e => is_ingest_event e = true) (opening f))
      by (destruct f; repeat constructor).
    assert (Eo : creates (opening f) = [] /\ inserts (opening f) = [])
      by (destruct f; now split).
    destruct Eo as [Co No].
    destruct (opening_silent f) as [Io _].
    split; [|split; [|split]].
    + repeat (apply Forall_app; split); trivial. repeat constructor.
    + rewrite !inferences_app, I1, Io. simpl. now rewrite I2.
    + rewrite !creates_app, !inferences_app, !flat_map_app, I1, Io, Co, C1, C2.
      cbn [creates inferences flat_map app]. now rewrite !app_nil_r.
    + rewrite !inserts_app, !inferences_app, !flat_map_app, I1, Io, No, N1, N2.
      cbn [inserts inferences flat_map app]. now rewrite !app_nil_r.
Qed.

(** The statements a completed run of the queries has executed. *)
Lemma execute_queries_completed (W : World) (queries : list string)
    (rows r : option ResultProxy) (tr tr' : trace) :
  execute_queries W queries rows tr = (Ret r, tr') ->
  exists d,
    tr' = tr ++ d
    /\ Forall (fun e => is_finish_event e = true) d
    /\ executed d = filter nonempty queries.
Proof.
  revert rows tr. induction queries as [|q queries IH]; intros rows tr H; simpl in H.
  - inversion H. exists []. rewrite app_nil_r. repeat split; constructor.
  - simpl. destruct (nonempty q); [|now apply (IH rows)].
    unfold bind, perform in H.
    destruct (execute_query W tr q) as [x|e]; [|discriminate H].
    destruct (IH _ _ H) as [d [-> [G E]]].
    exists (EvExecute q (Ret x) :: d).
    split; [now rewrite <- app_assoc|].
    split; [now constructor|]. simpl. now rewrite E.
Qed.

(** The end of a completed live run with a non-empty query. *)
Lemma finish_completed (W : World) (cs : option string) (q : string)
    (tr tr' : trace) :
  truthy cs = true ->
  nonempty q = true ->
  finish W cs (Some q) tr = (Ret tt, tr') ->
  exists d,
    tr' = tr ++ d
    /\ Forall (fun e => is_finish_event e = true) d
    /\ executed d = filter nonempty (split ";" q).
Proof.
  intros Hcs Hq. unfold finish. rewrite Hcs.
  replace (truthy (Some q)) with true
    by (destruct q; [discriminate Hq|reflexivity]).
  cbn [when]. unfold run_queries. cbv zeta. intros H.
  apply bind_inv in H. destruct H as [[[] [tr1 [H1 H]]]|[e [_ H]]]; [|discriminate H].
  apply bind_inv in H1. destruct H1 as [[rows [tr0 [H0 H1]]]|[e [_ H1]]];
    [|discriminate H1].
  destruct (execute_queries_completed _ _ _ _ _ _ H0) as [d0 [-> [G0 E0]]].
  destruct (write_result_only
              (fun e => is_finish_event e = true
                        /\ match e with EvExecute _ _ => False | _ => True end)
              rows) with (tr := tr ++ d0) as [d1 [E1 G1]];
    [intros; now split|].
  rewrite H1 in E1. simpl in E1. subst tr1.
  unfold bind, perform, emit in H.
  destruct (transaction_commit W _) as [[]|e]; [|discriminate H].
  inversion H.
  exists ((d0 ++ d1) ++ [EvCommit (Ret tt); EvConnClose]).
  split; [now rewrite <- !app_assoc|].
  split.
  - repeat (apply Forall_app; split); trivial; [|repeat constructor].
    eapply Forall_impl; [|exact G1]. now intros e [He _].
  - rewrite !executed_app, E0, (no_execute_executed d1).
    + simpl. now rewrite !app_nil_r.
    + eapply Forall_impl; [|exact G1]. now intros e [_ He].
Qed.

(** C7: a non-empty query without a database target makes the in-memory
    database the connection target and forces insertion, and the run is
    the run of the same command line with [--db sqlite:///:memory:
    --insert].  Unless [--dialect] is given too, the first thing the run
    does is to connect to the in-memory database.  And a run that
    completes has set that connection up, then ingested every input
    (creating each table with columns unless [--no-create] is given, and
    inserting the rows of each one that has rows), and only then executed
    the non-empty pieces of the query, in order. *)
Theorem query_without_db_uses_memory_database (W : World) (a : Args.t) :
  truthy (Args.query a) = true ->
  truthy (Args.connection_string a) = false ->
  effective_connection_string a = Some memory_database
  /\ effective_do_insert a = true
  /\ (forall tr, main W a tr = main W (with_memory_database a) tr)
  /\ (truthy (Args.dialect a) = false ->
      exists r rest,
        snd (main W a []) = EvGetConnection memory_database r :: rest)
  /\ (forall tr,
        main W a [] = (Ret tt, tr) ->
        exists ingestion finishing,
          tr = connection_setup memory_database ++ ingestion ++ finishing
          /\ Forall (fun e => is_ingest_event e = true) ingestion
          /\ Forall (fun e => is_finish_event e = true) finishing
          /\ map (fun i => fst (fst i)) (inferences ingestion)
             = map handle_of_path (Args.input_paths a)
          /\ creates ingestion = flat_map (expected_create a) (inferences ingestion)
          /\ inserts ingestion = flat_map (expected_insert a) (inferences ingestion)
          /\ executed finishing = query_statements a).
Proof.
  intros Hq Hcs.
  assert (E1 : effective_connection_string a = Some memory_database).
  { unfold effective_connection_string. now rewrite Hq, Hcs. }
  assert (E2 : effective_do_insert a = true).
  { unfold effective_do_insert. now rewrite Hq, Hcs. }
  split; [exact E1|]. split; [exact E2|]. split; [|split].
  - intros tr. rewrite !main_run, E1, E2.
    replace (effective_connection_string (with_memory_database a))
      with (Some memory_database)
      by (unfold effective_connection_string; simpl; now rewrite andb_false_r).
    replace (effective_do_insert (with_memory_database a)) with true
      by (unfold effective_do_insert; simpl; now rewrite andb_false_r).
    change (option_error (with_memory_database a) (Some memory_database) true)
      with (option_error a (Some memory_database) true).
    destruct (option_error a (Some memory_database) true); [reflexivity|].
    unfold after_checks. rewrite E1, E2.
    replace (effective_connection_string (with_memory_database a))
      with (Some memory_database)
      by (unfold effective_connection_string; simpl; now rewrite andb_false_r).
    replace (effective_do_insert (with_memory_database a)) with true
      by (unfold effective_do_insert; simpl; now rewrite andb_false_r).
    change (Args.input_paths (with_memory_database a)) with (Args.input_paths a).
    change (split_table_names (with_memory_database a)) with (split_table_names a).
    change (Args.query (with_memory_database a)) with (Args.query a).
    unfold bind.
    destruct (establish_connection W (Some memory_database) _) as [[[]|e] tr1];
      [|reflexivity].
    rewrite (process_input_files_same_options W a (with_memory_database a));
      reflexivity.
  - intros Hd. rewrite main_run, E1, E2.
    unfold option_error. rewrite Hd. cbn [andb negb truthy memory_database].
    rewrite andb_false_r.
    unfold after_checks. rewrite E1, E2.
    destruct (establish_connection_first W memory_database [] eq_refl)
      as [r [d E]].
    unfold bind at 1.
    destruct (establish_connection W (Some memory_database) []) as [[[]|e] tr1];
      cbn [snd app] in E; subst tr1.
    + assert (H : emits (Forall (fun _ => True))
                    (process_input_files W a (Some memory_database) true
                       (map handle_of_path (Args.input_paths a))
                       (split_table_names a) ;;
                     finish W (Some memory_database) (Args.query a))).
      { apply emits_bind.
        - apply process_input_files_only; intros; exact I.
        - intros _. apply finish_only; intros; exact I. }
      destruct (H (EvGetConnection memory_database r :: d)) as [d2 [-> _]].
      now exists r, (d ++ d2).
    + now exists r, d.
  - intros tr. rewrite main_run, E1, E2.
    destruct (option_error a _ _); [discriminate|].
    unfold after_checks. rewrite E1, E2. intros H.
    apply bind_inv in H. destruct H as [[[] [tr1 [H1 H]]]|[e [_ H]]]; [|discriminate H].
    apply bind_inv in H. destruct H as [[[] [tr2 [H2 H]]]|[e [_ H]]]; [|discriminate H].
    apply (establish_connection_completed W memory_database [] tr1 eq_refl) in H1.
    cbn [app] in H1. subst tr1.
    destruct (process_input_files_live W a (Some memory_database) _ _ _ _ eq_refl H2)
      as [d2 [-> [G2 [I2 [C2 N2]]]]].
    unfold query_statements.
    destruct (Args.query a) as [[|c q]|]; try discriminate Hq.
    destruct (finish_completed W (Some memory_database) (String c q) _ _
                eq_refl eq_refl H) as [d3 [-> [G3 X3]]].
    exists d2, d3. rewrite <- app_assoc. repeat split; assumption.
Qed.

Lemma query_without_db_uses_memory_database_witness :
  effective_connection_string query_only_args = Some memory_database
  /\ effective_do_insert query_only_args = true
  /\ (forall tr, main quiet_world query_only_args tr
                 = main quiet_world (with_memory_database query_only_args) tr)
  /\ (exists r rest,
         snd (main quiet_world query_only_args [])
         = EvGetConnection memory_database r :: rest)
  /\ (exists ingestion finishing,
         snd (main quiet_world query_only_args [])
         = connection_setup memory_database ++ ingestion ++ finishing
         /\ Forall (fun e => is_ingest_event e = true) ingestion
         /\ Forall (fun e => is_finish_event e = true) finishing
         /\ map (fun i => fst (fst i)) (inferences ingestion) = [File "a.csv"]
         /\ creates ingestion
            = flat_map (expected_create query_only_args) (inferences ingestion)
         /\ inserts ingestion
            = flat_map (expected_insert query_only_args) (inferences ingestion)
         /\ executed finishing = ["SELECT 1"]).
Proof.
  destruct (query_without_db_uses_memory_database quiet_world query_only_args
              eq_refl eq_refl) as [H1 [H2 [H3 [H4 H5]]]].
  split; [exact H1|]. split; [exact H2|]. split; [exact H3|].
  split; [exact (H4 eq_refl)|].
  exact (H5 (snd (main quiet_world query_only_args [])) eq_refl).
Defined.

(** * Further properties of [main] *)

(** ** More on the option checks *)

Lemma effective_with_target (a : Args.t) :
  truthy (Args.connection_string a) = true ->
  effective_connection_string a = Args.connection_string a
  /\ effective_do_insert a = Args.insert a.
Proof.
  intros H. unfold effective_connection_string, effective_do_insert.
  rewrite H, andb_false_r. now split.
Qed.

Lemma effective_without_query (a : Args.t) :
  truthy (Args.query a) = false ->
  effective_connection_string a = Args.connection_string a
  /\ effective_do_insert a = Args.insert a.
Proof.
  intros H. unfold effective_connection_string, effective_do_insert.
  rewrite H. now split.
Qed.

Lemma valid_combination_passes (a : Args.t) :
  invalid_combination a = false ->
  option_error a (effective_connection_string a) (effective_do_insert a) = None.
Proof.
  intros H.
  destruct (option_error a _ _) as [message|] eqn:E; [|reflexivity].
  assert (H' : invalid_combination a = true)
    by (apply option_error_invalid; eauto).
  congruence.
Qed.

(** X1: [--insert] with neither [--db] nor [--query] is rejected with the
    insert message, and nothing has happened by then: no file is opened,
    no connection is made and nothing is written. *)
Theorem insert_without_target_fails (W : World) (a : Args.t) :
  Args.insert a = true ->
  truthy (Args.connection_string a) = false ->
  truthy (Args.query a) = false ->
  main W a [] = (Raise (ArgparserError insert_message), []).
Proof.
  intros Hins Hcs Hq. rewrite main_run.
  destruct (effective_without_query a Hq) as [-> ->].
  unfold option_error. now rewrite Hcs, Hins, andb_false_r.
Qed.

Lemma insert_without_target_fails_witness :
  main quiet_world insert_only_args []
  = (Raise (ArgparserError insert_message), []).
Proof.
  apply (insert_without_target_fails quiet_world insert_only_args); reflexivity.
Defined.

(** X2: [--dialect] together with [--db] is rejected with the dialect
    message, whatever the other options are: the dialect check comes
    first, and nothing has happened by then. *)
Theorem dialect_with_db_fails (W : World) (a : Args.t) :
  truthy (Args.dialect a) = true ->
  truthy (Args.connection_string a) = true ->
  main W a [] = (Raise (ArgparserError dialect_message), []).
Proof.
  intros Hd Hcs. rewrite main_run.
  destruct (effective_with_target a Hcs) as [-> ->].
  unfold option_error. now rewrite Hd, Hcs.
Qed.

Lemma dialect_with_db_fails_witness :
  main quiet_world dialect_and_db_args []
  = (Raise (ArgparserError dialect_message), []).
Proof.
  apply (dialect_with_db_fails quiet_world dialect_and_db_args); reflexivity.
Defined.

(** ** The connection comes first *)

(** X3: when [get_connection] raises, the run ends there: that call is
    the only thing that has happened, so no input is opened or read and
    nothing is written; an [ImportError] is raised again with the message
    about database backends, any other exception is passed on unchanged. *)
Theorem connection_failure_reads_nothing (W : World) (a : Args.t)
    (target : string) (e : exn) :
  invalid_combination a = false ->
  effective_connection_string a = Some target ->
  nonempty target = true ->
  get_connection W [] target = Raise e ->
  main W a []
  = (Raise (match e with
            | ImportError _ => ImportError backend_message
            | _ => e
            end),
     [EvGetConnection target (Raise e)]).
Proof.
  intros Hv Hcs Ht Hg. rewrite main_run, (valid_combination_passes a Hv).
  unfold after_checks. rewrite Hcs. cbn [app].
  unfold establish_connection.
  replace (truthy (Some target)) with true by (destruct target; [discriminate|reflexivity]).
  cbn [when]. unfold bind at 1. unfold bind at 1. unfold try_except, perform.
  rewrite Hg. destruct e; reflexivity.
Qed.

Lemma connection_failure_reads_nothing_witness :
  main driverless_world live_args []
  = (Raise (ImportError backend_message),
     [EvGetConnection "sqlite:///x.db" (Raise (ImportError "No module named psycopg2"))]).
Proof.
  apply (connection_failure_reads_nothing driverless_world live_args
           "sqlite:///x.db" (ImportError "No module named psycopg2"));
    reflexivity.
Defined.

(** Sequencing two computations whose events fall in two classes. *)
Lemma emits_then {A B} (Q1 Q2 : trace -> Prop) (m : M A) (k : A -> M B) :
  emits Q1 m -> (forall x, emits Q2 (k x)) -> Q2 [] ->
  emits (fun d => exists d1 d2, d = d1 ++ d2 /\ Q1 d1 /\ Q2 d2) (bind m k).
Proof.
  intros Hm Hk Hnil tr. unfold bind.
  destruct (Hm tr) as [d1 [E1 H1]].
  destruct (m tr) as [[x|e] tr1]; simpl in E1; subst tr1.
  - destruct (Hk x (tr ++ d1)) as [d2 [E2 H2]].
    exists (d1 ++ d2). rewrite E2, app_assoc. split; [reflexivity|].
    exists d1, d2. auto.
  - exists d1. split; [reflexivity|].
    exists d1, []. rewrite app_nil_r. auto.
Qed.

(** X4: every run goes through its phases in order: the calls that set
    the connection up, then the ingestion of the inputs (each one opened,
    read, closed and turned into SQL), then the queries and the commit.
    So the connection is established before any input is opened or read,
    and no query is executed before every input has been processed. *)
Theorem phases_in_order (W : World) (a : Args.t) :
  exists connection ingestion finishing,
    snd (main W a []) = connection ++ ingestion ++ finishing
    /\ Forall (fun e => is_connection_event e = true) connection
    /\ Forall (fun e => is_ingest_event e = true) ingestion
    /\ Forall (fun e => is_finish_event e = true) finishing.
Proof.
  rewrite main_run. destruct (option_error a _ _).
  { exists [], [], []. simpl. repeat split; constructor. }
  unfold after_checks.
  match goal with
  | |- context [bind ?m ?k] =>
      destruct (emits_then
                  (Forall (fun e => is_connection_event e = true))
                  (fun d => exists d1 d2,
                       d = d1 ++ d2
                       /\ Forall (fun e => is_ingest_event e = true) d1
                       /\ Forall (fun e => is_finish_event e = true) d2)
                  m k) with (tr := @nil event) as [d [E [dc [d' [-> [Hc [di [df [-> [Hi Hf]]]]]]]]]]
  end.
  - now apply establish_connection_only.
  - intros _. apply emits_then.
    + now apply process_input_files_only.
    + intros _. now apply finish_only.
    + constructor.
  - exists [], []. repeat split; constructor.
  - exists dc, di, df. rewrite E. repeat split; assumption.
Qed.

(** ** What a run never does *)

Lemma establish_connection_static (W : World) (cs : option string) :
  truthy cs = false -> establish_connection W cs = ret tt.
Proof. intros H. unfold establish_connection. now rewrite H. Qed.

Lemma finish_static (W : World) (cs query : option string) :
  truthy cs = false -> finish W cs query = ret tt.
Proof. intros H. unfold finish. now rewrite H. Qed.

Section Lifting.

Variable P : event -> Prop.
Variable W : World.
Variable a : Args.t.

(** A property of the events of [output_table] that also holds of the
    inference and closing events holds of the whole loop. *)
Lemma process_input_files_lift (cs : option string) (ins : bool)
    (fs : list handle) (names : list string) :
  (forall p, P (EvOpen p)) ->
  (forall f n r, P (EvFromCsv f n r)) ->
  (forall f, P (EvClose f)) ->
  (forall name t, emits (Forall P) (output_table W a cs ins name t)) ->
  emits (Forall P) (process_input_files W a cs ins fs names).
Proof.
  intros H0 H1 H2 H3. revert names.
  induction fs as [|f fs IH]; intros names; simpl.
  - apply emits_ret.
  - destruct (resolve_table_name names f) as [name names'].
    apply emits_bind; [|intros _; apply IH].
    unfold process_input_file.
    apply emits_bind; [apply emits_open_on_first_use, opening_only, H0|intros _].
    apply emits_bind; [apply emits_perform; intros r; repeat constructor; auto|].
    intros t. apply emits_bind; [apply emits_emit; repeat constructor; auto|].
    intros _. apply H3.
Qed.

(** And of the whole run, if it holds of the other phases too. *)
Lemma main_lift :
  (forall p, P (EvOpen p)) ->
  (forall f n r, P (EvFromCsv f n r)) ->
  (forall f, P (EvClose f)) ->
  emits (Forall P) (establish_connection W (effective_connection_string a)) ->
  (forall name t,
      emits (Forall P)
            (output_table W a (effective_connection_string a)
               (effective_do_insert a) name t)) ->
  emits (Forall P) (finish W (effective_connection_string a) (Args.query a)) ->
  Forall P (snd (main W a [])).
Proof.
  intros Ho Hf Hc He Ht Hq. rewrite main_run.
  destruct (option_error a _ _); [constructor|].
  assert (H : emits (Forall P) (after_checks W a)).
  { unfold after_checks.
    apply emits_bind; [exact He|intros _].
    apply emits_bind; [|intros _; exact Hq].
    now apply process_input_files_lift. }
  destruct (H []) as [d [E Hd]].
  rewrite E. exact Hd.
Qed.

End Lifting.

Section Never.

Variable W : World.
Variable a : Args.t.

(** X5: without a database target and without a query, a run never
    touches a database: it only opens, reads and closes the input files and
    writes statements. *)
Theorem static_run_never_touches_database :
  truthy (Args.connection_string a) = false ->
  truthy (Args.query a) = false ->
  Forall (fun e => is_database_event e = false) (snd (main W a [])).
Proof.
  intros Hcs Hq. destruct (effective_without_query a Hq) as [E1 E2].
  apply main_lift; try reflexivity; rewrite E1.
  - rewrite establish_connection_static by exact Hcs. apply emits_ret.
  - intros name t. unfold output_table. rewrite Hcs.
    repeat emits_step; repeat constructor.
  - rewrite finish_static by exact Hcs. apply emits_ret.
Qed.

(** X6: with a database target (given, or the in-memory one a query
    brings), a run never writes a CREATE statement to the output: the only
    output is the rendering of the last query result. *)
Theorem live_run_never_writes_statements :
  truthy (effective_connection_string a) = true ->
  Forall (fun e => is_write e = false) (snd (main W a [])).
Proof.
  intros Hcs. apply main_lift; try reflexivity.
  - now apply establish_connection_only.
  - intros name t. unfold output_table. rewrite Hcs.
    repeat emits_step; repeat constructor.
  - now apply finish_only.
Qed.

(** X7: with [--no-create] no table is ever created. *)
Theorem no_create_never_creates :
  Args.no_create a = true ->
  Forall (fun e => is_create e = false) (snd (main W a [])).
Proof.
  intros Hnc. apply main_lift; try reflexivity.
  - now apply establish_connection_only.
  - intros name t. unfold output_table. rewrite Hnc. cbn [negb when].
    repeat emits_step; repeat constructor.
  - now apply finish_only.
Qed.

(** X8: rows are inserted only when asked for: without [--insert], and
    unless a query without [--db] forces insertion, no insert is ever
    executed. *)
Theorem no_insert_unless_requested :
  effective_do_insert a = false ->
  Forall (fun e => is_insert e = false) (snd (main W a [])).
Proof.
  intros Hins. apply main_lift; try reflexivity.
  - now apply establish_connection_only.
  - intros name t. unfold output_table. rewrite Hins. cbn [andb when].
    repeat emits_step; repeat constructor.
  - now apply finish_only.
Qed.

(** X9: a table is created or populated only if its schema has columns,
    and an insert is executed only for a table with at least one data row,
    with exactly one record per row, each built from the headers and the
    row. *)
Theorem tables_have_columns_and_inserts_have_rows :
  Forall table_event_ok (snd (main W a [])).
Proof.
  apply main_lift; try (intros; exact I).
  - apply establish_connection_only; intros; exact I.
  - intros name t. unfold output_table.
    destruct t as [t|]; [|apply emits_ret].
    destruct (table_bool (Some t)) eqn:Hb; [|apply emits_ret].
    destruct (truthy (effective_connection_string a)).
    + cbv zeta. apply emits_bind.
      * apply emits_when. apply emits_perform. intros r.
        repeat constructor. exact Hb.
      * intros _.
        destruct (effective_do_insert a && Nat.ltb 0 (count_rows t)) eqn:Hc;
          [|apply emits_ret].
        cbn [when]. apply emits_perform. intros r.
        repeat constructor; [exact Hb|].
        apply andb_true_iff in Hc. destruct Hc as [_ Hc].
        apply Nat.ltb_lt in Hc. unfold count_rows in Hc.
        cbn [sql_schema]. unfold to_rows.
        destruct (data_rows t); [simpl in Hc; lia|discriminate].
    + apply emits_emit. repeat constructor.
  - apply finish_only; intros; exact I.
Qed.

End Never.

Lemma static_run_never_touches_database_witness :
  Forall (fun e => is_database_event e = false)
         (snd (main strict_world bad_then_good_args [])).
Proof.
  apply (static_run_never_touches_database strict_world bad_then_good_args);
    reflexivity.
Defined.

Lemma live_run_never_writes_statements_witness :
  Forall (fun e => is_write e = false) (snd (main quiet_world query_only_args [])).
Proof.
  apply (live_run_never_writes_statements quiet_world query_only_args).
  reflexivity.
Defined.

Lemma no_create_never_creates_witness :
  Forall (fun e => is_create e = false)
         (snd (main quiet_world no_create_live_args [])).
Proof.
  apply (no_create_never_creates quiet_world no_create_live_args). reflexivity.
Defined.

Lemma no_insert_unless_requested_witness :
  Forall (fun e => is_insert e = false) (snd (main quiet_world create_only_args [])).
Proof.
  apply (no_insert_unless_requested quiet_world create_only_args). reflexivity.
Defined.

(** ** The records of an insert *)

Lemma dict_set_keys (k : string) (v : cell) (d : list (string * cell)) :
  (In k (map fst d) -> map fst (dict_set k v d) = map fst d)
  /\ (~ In k (map fst d) -> dict_set k v d = d ++ [(k, v)]).
Proof.
  induction d as [|[k' v'] d [IH1 IH2]]; simpl.
  - split; [intros []|reflexivity].
  - destruct (String.eqb_spec k' k) as [->|Hne]; split; intros H; simpl.
    + reflexivity.
    + exfalso. apply H. now left.
    + destruct H as [H|H]; [contradiction|]. now rewrite IH1.
    + rewrite IH2; [reflexivity|]. intros Hin. apply H. now right.
Qed.

Lemma dict_set_get (k k' : string) (v : cell) (d : list (string * cell)) :
  dict_get k (dict_set k' v d) = if String.eqb k' k then Some v else dict_get k d.
Proof.
  induction d as [|[k0 v0] d IH]; simpl.
  - reflexivity.
  - destruct (String.eqb_spec k0 k') as [->|Hne]; simpl.
    + destruct (String.eqb k' k); reflexivity.
    + rewrite IH. destruct (String.eqb_spec k0 k) as [->|Hne']; [|reflexivity].
      destruct (String.eqb_spec k' k) as [->|_]; [contradiction|reflexivity].
Qed.

Section Dict.


Lemma dict_fold_keys (pairs acc : list (string * cell)) :
  NoDup (map fst acc) ->
  NoDup (map fst (fold_left (fun d kv => dict_set (fst kv) (snd kv) d) pairs acc))
  /\ forall k, In k (map fst (fold_left (fun d kv => dict_set (fst kv) (snd kv) d) pairs acc))
               <-> In k (map fst acc) \/ In k (map fst pairs).
Proof.
  revert acc. induction pairs as [|[k v] pairs IH]; intros acc Hnd; simpl.
  - split; [exact Hnd|]. intros k. tauto.
  - destruct (dict_set_keys k v acc) as [Hin Hout].
    assert (Hkeys : NoDup (map fst (dict_set k v acc))
                    /\ forall x, In x (map fst (dict_set k v acc))
                                 <-> In x (map fst acc) \/ x = k).
    {
      destruct (in_dec string_dec k (map fst acc)) as [Hk|Hk].
      - rewrite (Hin Hk). split; [exact Hnd|].
        intros x. split; [tauto|]. intros [H| ->]; assumption.
      - rewrite (Hout Hk), map_app. cbn [map fst]. split.
        + apply NoDup_app; [exact Hnd|repeat constructor; intros []|].
          intros x Hx [<-|[]]. contradiction.
        + intros x. rewrite in_app_iff. simpl. intuition. }
    destruct Hkeys as [Hnd' Hin'].
    destruct (IH _ Hnd') as [H1 H2]. split; [exact H1|].
    intros x. rewrite H2, Hin'. intuition.
Qed.

Lemma dict_fold_distinct (pairs acc : list (string * cell)) :
  NoDup (map fst (acc ++ pairs)) -> fold_left (fun d kv => dict_set (fst kv) (snd kv) d) pairs acc = acc ++ pairs.
Proof.
  revert acc. induction pairs as [|[k v] pairs IH]; intros acc Hnd; simpl.
  - now rewrite app_nil_r.
  - assert (Hk : ~ In k (map fst acc)).
    { rewrite map_app in Hnd. cbn [map fst] in Hnd.
      apply NoDup_remove_2 in Hnd. intros H. apply Hnd.
      apply in_or_app. now left. }
    rewrite (proj2 (dict_set_keys k v acc) Hk).
    rewrite IH; rewrite <- app_assoc; [reflexivity|exact Hnd].
Qed.

Lemma dict_fold_get (k : string) (pairs acc : list (string * cell)) :
  dict_get k (fold_left (fun d kv => dict_set (fst kv) (snd kv) d) pairs acc)
  = match last_value k pairs with
    | Some v => Some v
    | None => dict_get k acc
    end.
Proof.
  revert acc. induction pairs as [|[k' v] pairs IH]; intros acc; simpl.
  - reflexivity.
  - rewrite IH. destruct (last_value k pairs); [reflexivity|].
    rewrite dict_set_get.
    destruct (String.eqb k' k); reflexivity.
Qed.

End Dict.

Lemma combine_keys {B} (hs : list string) (row : list B) :
  map fst (combine hs row) = firstn (List.length row) hs.
Proof.
  revert row. induction hs as [|h hs IH]; intros [|x row]; simpl; trivial.
  now rewrite IH.
Qed.

Lemma firstn_incl {A} (n : nat) (l : list A) (x : A) :
  In x (firstn n l) -> In x l.
Proof.
  intros H. rewrite <- (firstn_skipn n l). apply in_or_app. now left.
Qed.

Lemma firstn_NoDup {A} (n : nat) (l : list A) : NoDup l -> NoDup (firstn n l).
Proof.
  intros H. revert n. induction H as [|x l Hx _ IH]; intros [|n]; simpl;
    try constructor; auto.
  intros Hin. apply Hx. eapply firstn_incl. exact Hin.
Qed.

(** X10: the record built for a row never holds a key twice, and holds
    exactly the keys of the pairs it is built from. *)
Theorem record_keys_distinct (pairs : list (string * cell)) :
  NoDup (map fst (dict pairs))
  /\ forall k, In k (map fst (dict pairs)) <-> In k (map fst pairs).
Proof.
  destruct (dict_fold_keys pairs [] (NoDup_nil _)) as [H1 H2].
  split; [exact H1|]. intros k. unfold dict. rewrite H2. simpl. tauto.
Qed.

(** X11: when the headers are distinct, the record of a row pairs each
    header with the cell at the same position, up to the shorter of the
    two. *)
Theorem record_of_distinct_headers (hs : list string) (row : list cell) :
  NoDup hs -> dict (combine hs row) = combine hs row.
Proof.
  intros H. unfold dict.
  apply (dict_fold_distinct (combine hs row) []). simpl.
  rewrite combine_keys. now apply firstn_NoDup.
Qed.

Lemma record_of_distinct_headers_witness :
  dict (combine ["a"; "b"; "c"] [Some "1"; None])
  = [("a", Some "1"); ("b", None)].
Proof.
  apply (record_of_distinct_headers ["a"; "b"; "c"] [Some "1"; None]).
  repeat constructor; simpl; intuition discriminate.
Defined.

(** X12: when a header is repeated, the record keeps one entry for it,
    holding the cell of its last occurrence. *)
Theorem record_last_value_wins (k : string) (pairs : list (string * cell)) :
  dict_get k (dict pairs) = last_value k pairs.
Proof.
  unfold dict. rewrite (dict_fold_get k pairs []). simpl.
  now destruct (last_value k pairs).
Qed.

(** ** Splitting names and queries *)

Lemma split_nonempty (sep : ascii) (s : string) :
  exists piece pieces, split sep s = piece :: pieces.
Proof.
  destruct s as [|c rest]; simpl; [eauto|].
  destruct (Ascii.eqb c sep); [eauto|].
  destruct (split sep rest); eauto.
Qed.

Lemma split_pieces_clean (sep : ascii) (s : string) :
  Forall (fun piece => has_char sep piece = false) (split sep s).
Proof.
  induction s as [|c rest IH]; simpl.
  - repeat constructor.
  - destruct (Ascii.eqb c sep) eqn:Hc.
    + constructor; [reflexivity|exact IH].
    + destruct (split sep rest) as [|piece pieces].
      * repeat constructor. simpl. now rewrite Hc.
      * inversion IH; subst. constructor; [|assumption].
        simpl. now rewrite Hc.
Qed.

Lemma join_cons (sep c : ascii) (piece : string) (pieces : list string) :
  join sep (String c piece :: pieces) = String c (join sep (piece :: pieces)).
Proof. destruct pieces; reflexivity. Qed.

Lemma join_split (sep : ascii) (s : string) : join sep (split sep s) = s.
Proof.
  induction s as [|c rest IH]; [reflexivity|]. simpl.
  destruct (split_nonempty sep rest) as [piece [pieces E]]. rewrite E in *.
  destruct (Ascii.eqb_spec c sep) as [->|_].
  - change (join sep (EmptyString :: piece :: pieces))
      with (String sep (join sep (piece :: pieces))).
    now rewrite IH.
  - now rewrite join_cons, IH.
Qed.

(** X13: splitting loses nothing: the pieces hold no separator, there is
    at least one, and joining them with the separator gives the string
    back. *)
Theorem split_then_join (sep : ascii) (s : string) :
  split sep s <> []
  /\ Forall (fun piece => has_char sep piece = false) (split sep s)
  /\ join sep (split sep s) = s.
Proof.
  split; [|split].
  - destruct (split_nonempty sep s) as [piece [pieces ->]]. discriminate.
  - apply split_pieces_clean.
  - apply join_split.
Qed.

Lemma split_clean (sep : ascii) (s : string) :
  has_char sep s = false -> split sep s = [s].
Proof.
  induction s as [|c rest IH]; [reflexivity|]. simpl. intros H.
  apply orb_false_iff in H. destruct H as [Hc Hrest].
  now rewrite Hc, IH.
Qed.

Lemma split_app (sep : ascii) (s1 s2 : string) :
  has_char sep s1 = false ->
  split sep (s1 ++ String sep s2) = s1 :: split sep s2.
Proof.
  induction s1 as [|c rest IH]; simpl; intros H.
  - now rewrite Ascii.eqb_refl.
  - apply orb_false_iff in H. destruct H as [Hc Hrest].
    now rewrite Hc, IH.
Qed.

(** X14: conversely, splitting the join of separator-free pieces gives the
    pieces back: [--tables] and [--query] carry exactly the sequences of
    names and statements that were joined. *)
Theorem join_then_split (sep : ascii) (pieces : list string) :
  pieces <> [] ->
  Forall (fun piece => has_char sep piece = false) pieces ->
  split sep (join sep pieces) = pieces.
Proof.
  intros Hne H. induction H as [|piece pieces Hp _ IH]; [contradiction|].
  destruct pieces as [|piece' pieces].
  - simpl. now apply split_clean.
  - change (join sep (piece :: piece' :: pieces))
      with (piece ++ String sep (join sep (piece' :: pieces)))%string.
    rewrite split_app by exact Hp. f_equal. apply IH. discriminate.
Qed.

Lemma join_then_split_witness :
  split "," (join "," ["x"; ""; "y z"]) = ["x"; ""; "y z"].
Proof.
  apply (join_then_split "," ["x"; ""; "y z"]).
  - discriminate.
  - repeat constructor.
Defined.

Lemma execute_queries_clean (W : World) (queries : list string)
    (rows : option ResultProxy) :
  Forall (fun q => has_char ";" q = false) queries ->
  emits (Forall query_event_ok) (execute_queries W queries rows).
Proof.
  intros H. revert rows.
  induction H as [|q queries Hq _ IH]; intros rows; simpl.
  - apply emits_ret.
  - destruct (nonempty q) eqn:Hn; [|apply IH].
    apply emits_bind; [|intros r; apply IH].
    apply emits_perform. intros r. repeat constructor; assumption.
Qed.

(** X15: a statement sent to the database is never empty and never holds
    a semicolon, whatever the query string is. *)
Theorem executed_statements_are_clean (W : World) (a : Args.t) :
  Forall query_event_ok (snd (main W a [])).
Proof.
  apply main_lift; try (intros; exact I).
  - apply establish_connection_only; intros; exact I.
  - intros name t. apply output_table_only; intros; exact I.
  - unfold finish. apply emits_when. apply emits_bind.
    + apply emits_when. destruct (Args.query a) as [q|]; [|apply emits_ret].
      unfold run_queries. cbv zeta. apply emits_bind.
      * apply execute_queries_clean, split_pieces_clean.
      * intros rows. apply write_result_only. intros; exact I.
    + intros _. repeat emits_step; repeat constructor.
Qed.

(** ** More on table names *)

Lemma resolved_names_surplus (fs : list handle) (names : list string) :
  List.length fs <= List.length names ->
  resolved_names fs names = firstn (List.length fs) names.
Proof.
  revert names. induction fs as [|f fs IH]; intros names Hlen; [reflexivity|].
  destruct names as [|n names]; [simpl in Hlen; lia|].
  simpl. rewrite IH by (simpl in Hlen; lia). reflexivity.
Qed.

(** X16: when there are at least as many explicit names as sources, a
    completed run names the sources by the first names, in order; the
    surplus names are ignored and no fallback name is used. *)
Theorem surplus_names_ignored (W : World) (a : Args.t) (tr : trace) :
  List.length (Args.input_paths a) <= List.length (split_table_names a) ->
  main W a [] = (Ret tt, tr) ->
  map (fun i => snd (fst i)) (inferences tr)
  = firstn (List.length (Args.input_paths a)) (split_table_names a).
Proof.
  intros Hlen H. destruct (main_completed W a tr H) as [_ Hn].
  rewrite Hn, resolved_names_surplus; rewrite length_map; trivial.
Qed.

Lemma surplus_names_ignored_witness :
  map (fun i => snd (fst i))
      (inferences (snd (main quiet_world surplus_names_args [])))
  = ["x"; "y"].
Proof.
  apply (surplus_names_ignored quiet_world surplus_names_args
           (snd (main quiet_world surplus_names_args []))).
  - vm_compute. lia.
  - reflexivity.
Defined.

Lemma filename_stem_spec_witness :
  filename_stem "data/2016/b.csv" = "b" /\ filename_stem "b.csv" = "b".
Proof.
  apply (filename_stem_spec "data/2016" "b" "csv");
    solve [reflexivity | discriminate].
Defined.

Lemma has_char_split (c : ascii) (s : string) :
  has_char c s = true ->
  exists s1 s2, s = (s1 ++ String c s2)%string /\ has_char c s2 = false.
Proof.
  induction s as [|x rest IH]; simpl; [discriminate|]. intros H.
  destruct (has_char c rest) eqn:Hrest.
  - destruct (IH eq_refl) as [s1 [s2 [-> H2]]].
    exists (String x s1), s2. now split.
  - rewrite orb_false_r in H. apply Ascii.eqb_eq in H. subst x.
    exists EmptyString, rest. now split.
Qed.

Lemma has_char_substring (c : ascii) (n m : nat) (s : string) :
  has_char c s = false -> has_char c (substring n m s) = false.
Proof.
  revert n m. induction s as [|x rest IH]; intros n m H.
  - destruct n, m; reflexivity.
  - simpl in H. apply orb_false_iff in H. destruct H as [Hx Hrest].
    destruct n as [|n]; [destruct m as [|m]|]; simpl; trivial.
    + now rewrite Hx, IH.
    + now apply IH.
Qed.

(** X17: the fallback table name of a file never holds a slash: the
    directories of the path do not reach the table name. *)
Theorem filename_stem_has_no_slash (name : string) :
  has_char "/" (filename_stem name) = false.
Proof.
  unfold filename_stem.
  assert (Htail : has_char "/" (snd (os_path.split name)) = false).
  { destruct (has_char "/" name) eqn:H.
    - destruct (has_char_split "/" name H) as [dir [tail [-> Ht]]].
      now rewrite (proj1 (split_tail dir tail Ht)).
    - now rewrite (proj2 (split_tail EmptyString name H)). }
  set (tail := snd (os_path.split name)) in *.
  unfold os_path.splitext.
  destruct (rfind "/" tail <? rfind "." tail)%Z; [|exact Htail].
  destruct (os_path.skip_leading_dots _ _ _); [|exact Htail].
  cbn [fst]. unfold slice_to. now apply has_char_substring.
Qed.

(** ** Closing the inputs *)

Lemma closes_app (d1 d2 : trace) : closes (d1 ++ d2) = closes d1 ++ closes d2.
Proof. apply flat_map_app. Qed.

Lemma no_close_closes (d : trace) :
  Forall (fun e => match e with EvClose _ => False | _ => True end) d ->
  closes d = [].
Proof.
  induction 1 as [|e d He _ IH]; [reflexivity|].
  destruct e; try contradiction; exact IH.
Qed.

Lemma process_input_files_closes_all (W : World) (a : Args.t) (cs : option string)
    (ins : bool) (fs : list handle) (names : list string) (tr tr' : trace) :
  process_input_files W a cs ins fs names tr = (Ret tt, tr') ->
  exists d, tr' = tr ++ d /\ closes d = fs.
Proof.
  revert names tr. induction fs as [|f fs IH]; intros names tr H; simpl in H.
  - inversion H; subst. exists []. now rewrite app_nil_r.
  - destruct (resolve_table_name names f) as [name names'].
    apply bind_inv in H. destruct H as [[[] [tr1 [H1 H]]]|[e [_ H]]]; [|discriminate H].
    rewrite process_input_file_run in H1.
    destruct (from_csv W (tr ++ opening f) f name (csv_options a)) as [t|e];
      [|discriminate H1].
    destruct (output_table_only
                (fun e => match e with EvClose _ => False | _ => True end)
                W a cs ins name t)
      with (tr := (tr ++ opening f) ++ [EvFromCsv f name (Ret t); EvClose f])
      as [d1 [E1 Hd1]]; try (intros; exact I).
    rewrite H1 in E1. simpl in E1. subst tr1.
    destruct (IH _ _ H) as [d2 [E2 C2]].
    exists (((opening f ++ [EvFromCsv f name (Ret t); EvClose f]) ++ d1) ++ d2).
    split; [now rewrite E2, !app_assoc|].
    rewrite !closes_app, (no_close_closes d1 Hd1), C2.
    destruct (opening_silent f) as [_ [_ [_ ->]]]. reflexivity.
Qed.

(** X18: a run that completes has closed every input source exactly once,
    in input order, standard input included. *)
Theorem completed_run_closes_every_input (W : World) (a : Args.t) (tr : trace) :
  main W a [] = (Ret tt, tr) ->
  closes tr = map handle_of_path (Args.input_paths a).
Proof.
  rewrite main_run. destruct (option_error a _ _); [discriminate|].
  unfold after_checks. intros H.
  apply bind_inv in H. destruct H as [[[] [tr1 [H1 H]]]|[e [_ H]]]; [|discriminate H].
  apply bind_inv in H. destruct H as [[[] [tr2 [H2 H]]]|[e [_ H]]]; [|discriminate H].
  destruct (establish_connection_only
              (fun e => match e with EvClose _ => False | _ => True end) W
              (effective_connection_string a)) with (tr := @nil event)
    as [d1 [E1 Hd1]]; try (intros; exact I).
  rewrite H1 in E1. simpl in E1. subst tr1.
  destruct (process_input_files_closes_all _ _ _ _ _ _ _ _ H2) as [d2 [E2 C2]].
  subst tr2.
  destruct (finish_only
              (fun e => match e with EvClose _ => False | _ => True end) W
              (effective_connection_string a) (Args.query a))
    with (tr := d1 ++ d2) as [d3 [E3 Hd3]]; try (intros; exact I).
  rewrite H in E3. simpl in E3. subst tr.
  rewrite !closes_app, (no_close_closes d1 Hd1), (no_close_closes d3 Hd3), C2.
  now rewrite app_nil_r.
Qed.

Lemma completed_run_closes_every_input_witness :
  closes (snd (main quiet_world named_args []))
  = [File "a.csv"; File "dir/b.csv"; Stdin].
Proof.
  apply (completed_run_closes_every_input quiet_world named_args
           (snd (main quiet_world named_args []))).
  reflexivity.
Defined.

(** ** Options without effect *)

Lemma output_table_static_run (W : World) (a : Args.t) (cs : option string)
    (ins : bool) (f : handle) (name : string) (t : option Table) (tr : trace) :
  truthy cs = false ->
  output_table W a cs ins name t tr = (Ret tt, tr ++ statement_line W a (f, name, t)).
Proof.
  intros Hcs. unfold output_table, statement_line.
  destruct t as [t|]; [destruct (table_bool (Some t))|];
    rewrite ?Hcs; unfold emit, ret; rewrite ?app_nil_r; reflexivity.
Qed.

Lemma process_input_files_static_db_schema (W : World) (a : Args.t)
    (s : option string) (cs : option string) (ins : bool) (fs : list handle)
    (names : list string) (tr : trace) :
  truthy cs = false ->
  process_input_files W (set_db_schema s a) cs ins fs names tr
  = process_input_files W a cs ins fs names tr.
Proof.
  intros Hcs. revert names tr.
  induction fs as [|f fs IH]; intros names tr; simpl; [reflexivity|].
  destruct (resolve_table_name names f) as [name names'].
  unfold bind. rewrite !process_input_file_run.
  change (csv_options (set_db_schema s a)) with (csv_options a).
  destruct (from_csv W (tr ++ opening f) f name (csv_options a)) as [t|e];
    [|reflexivity].
  rewrite !(output_table_static_run _ _ _ _ f) by exact Hcs.
  apply IH.
Qed.

(** X19: without a database target and without a query, [--db-schema] has
    no effect at all: the run is the run without it. *)
Theorem db_schema_ignored_in_static_mode (W : World) (a : Args.t)
    (s : option string) (tr : trace) :
  truthy (Args.connection_string a) = false ->
  truthy (Args.query a) = false ->
  main W (set_db_schema s a) tr = main W a tr.
Proof.
  intros Hcs Hq. rewrite !main_run.
  change (effective_connection_string (set_db_schema s a))
    with (effective_connection_string a).
  change (effective_do_insert (set_db_schema s a)) with (effective_do_insert a).
  change (option_error (set_db_schema s a)) with (option_error a).
  change (Args.input_paths (set_db_schema s a)) with (Args.input_paths a).
  destruct (option_error a _ _); [reflexivity|].
  unfold after_checks.
  change (effective_connection_string (set_db_schema s a))
    with (effective_connection_string a).
  change (effective_do_insert (set_db_schema s a)) with (effective_do_insert a).
  change (Args.input_paths (set_db_schema s a)) with (Args.input_paths a).
  change (split_table_names (set_db_schema s a)) with (split_table_names a).
  change (Args.query (set_db_schema s a)) with (Args.query a).
  destruct (effective_without_query a Hq) as [-> _].
  unfold bind.
  destruct (establish_connection W (Args.connection_string a) _) as [[[]|e] tr1];
    [|reflexivity].
  now rewrite process_input_files_static_db_schema.
Qed.

Lemma db_schema_ignored_in_static_mode_witness :
  main quiet_world db_schema_args [] = main quiet_world two_files_args [].
Proof.
  apply (db_schema_ignored_in_static_mode quiet_world two_files_args (Some "s") []);
    reflexivity.
Defined.

(** ** Inputs are processed in order *)

Lemma sources_app (d1 d2 : trace) : sources (d1 ++ d2) = sources d1 ++ sources d2.
Proof. apply flat_map_app. Qed.

Lemma silent_events (d : trace) :
  Forall is_silent d -> closes d = [] /\ sources d = [].
Proof.
  induction 1 as [|e d He _ [IH1 IH2]]; [now split|].
  destruct e; try contradiction; now split.
Qed.

Lemma process_input_files_in_order (W : World) (a : Args.t) (cs : option string)
    (ins : bool) (fs : list handle) (names : list string) (tr : trace) :
  exists d k,
    snd (process_input_files W a cs ins fs names tr) = tr ++ d
    /\ closes d = firstn k fs
    /\ (sources d = firstn k fs \/ sources d = firstn (S k) fs).
Proof.
  revert names tr. induction fs as [|f fs IH]; intros names tr; simpl.
  - exists [], 0. rewrite app_nil_r. auto.
  - destruct (resolve_table_name names f) as [name names'].
    unfold bind. rewrite process_input_file_run.
    destruct (opening_silent f) as [_ [So [_ Co]]].
    destruct (from_csv W (tr ++ opening f) f name (csv_options a)) as [t|e].
    + destruct (output_table_only is_silent W a cs ins name t)
        with (tr := (tr ++ opening f) ++ [EvFromCsv f name (Ret t); EvClose f])
        as [d1 [E1 Hd1]]; try (intros; exact I).
      destruct (silent_events d1 Hd1) as [C1 S1].
      destruct (output_table W a cs ins name t _) as [[[]|e] tr1];
        simpl in E1; subst tr1.
      * destruct (IH names' (((tr ++ opening f)
                              ++ [EvFromCsv f name (Ret t); EvClose f]) ++ d1))
          as [d2 [k [E2 [C2 S2]]]].
        exists (((opening f ++ [EvFromCsv f name (Ret t); EvClose f]) ++ d1) ++ d2),
               (S k).
        split; [now rewrite E2, !app_assoc|].
        rewrite !closes_app, !sources_app, C1, S1, C2, Co, So.
        cbn [closes sources flat_map app].
        split; [reflexivity|].
        destruct S2 as [-> | ->]; [left|right]; reflexivity.
      * exists ((opening f ++ [EvFromCsv f name (Ret t); EvClose f]) ++ d1), 1.
        split; [now rewrite !app_assoc|].
        rewrite !closes_app, !sources_app, C1, S1, Co, So. simpl. auto.
    + exists (opening f ++ [EvFromCsv f name (Raise e)]), 0.
      split; [now rewrite app_assoc|].
      rewrite closes_app, sources_app, Co, So. simpl. auto.
Qed.

(** X22: in every run, failed or not, the inputs are read and closed
    strictly in input order: the sources closed are the first [k] inputs
    for some [k], and the sources read are those, or those and the next
    one (the one whose inference step failed, which is never closed). *)
Theorem inputs_processed_in_order (W : World) (a : Args.t) :
  exists k,
    closes (snd (main W a [])) = firstn k (map handle_of_path (Args.input_paths a))
    /\ (sources (snd (main W a [])) = firstn k (map handle_of_path (Args.input_paths a))
        \/ sources (snd (main W a []))
           = firstn (S k) (map handle_of_path (Args.input_paths a))).
Proof.
  rewrite main_run.
  destruct (option_error a _ _).
  { exists 0. cbn [snd]. auto. }
  assert (H : exists d k,
             snd (after_checks W a []) = d
             /\ closes d = firstn k (map handle_of_path (Args.input_paths a))
             /\ (sources d = firstn k (map handle_of_path (Args.input_paths a))
                 \/ sources d = firstn (S k) (map handle_of_path (Args.input_paths a)))).
  { unfold after_checks.
    destruct (establish_connection_only is_silent W (effective_connection_string a))
      with (tr := @nil event) as [d1 [E1 Hd1]]; try (intros; exact I).
    destruct (silent_events d1 Hd1) as [C1 S1].
    unfold bind at 1.
    destruct (establish_connection W _ []) as [[[]|e] tr1]; simpl in E1; subst tr1.
    2:{ exists d1, 0. cbn [snd]. rewrite C1, S1. auto. }
    destruct (process_input_files_in_order W a (effective_connection_string a)
                (effective_do_insert a) (map handle_of_path (Args.input_paths a))
                (split_table_names a) d1) as [d2 [k [E2 [C2 S2]]]].
    unfold bind.
    destruct (process_input_files W a _ _ _ _ d1) as [[[]|e] tr2];
      simpl in E2; subst tr2.
    - destruct (finish_only is_silent W (effective_connection_string a) (Args.query a))
        with (tr := d1 ++ d2) as [d3 [E3 Hd3]]; try (intros; exact I).
      destruct (silent_events d3 Hd3) as [C3 S3].
      exists ((d1 ++ d2) ++ d3), k.
      split; [exact E3|].
      rewrite !closes_app, !sources_app, C1, S1, C3, S3, C2, !app_nil_r.
      cbn [app]. exact (conj eq_refl S2).
    - exists (d1 ++ d2), k. cbn [snd].
      split; [reflexivity|].
      rewrite !closes_app, !sources_app, C1, S1, C2.
      cbn [app]. exact (conj eq_refl S2). }
  destruct H as [d [k [E [C S]]]]. exists k.
  rewrite E. now split.
Qed.
